(** * Snake: a shallow embedding of [snake.js] and its verified properties.

    The game is a single JavaScript file.  Its classes ([Point], [Pellet],
    [Snake] with the subclasses [RandomGrowthSnake] and [ImpatientSnake],
    [Game]) are embedded as records and functions that keep the names of the
    source.  Three effects of the source are made explicit:

    - [Math.random()] is a finite supply of results that a computation
      consumes front to back;
    - a [TypeError] (a property read on [undefined]) is an outcome of its own;
    - the browser ([document], [window], interval timers, event listeners) is
      a record that [Game.start] and [Game.tick] update. *)

From Stdlib Require Import ZArith QArith Qround Lia.
From stdpp Require Import base option list strings gmap.

(** ** Constants (snake.js, lines 5-13) *)

Definition WIDTH : Z := 30.
Definition HEIGHT : Z := 30.
Definition MAX_SNAKE_GROWTH : Z := 6.
Definition GAME_DELAY_MS : Z := 400.

(** ** Effects *)

(** The outcome of running a piece of the program against a finite prefix of
    the results of [Math.random()]. *)
Inductive Outcome (A : Type) : Type :=
  | Done (a : A) (rest : list Q)   (* returned [a]; [rest] was not consumed *)
  | Raise                          (* a TypeError was thrown *)
  | Starve.                        (* the prefix is used up: the run goes on *)
Arguments Done {A} a rest.
Arguments Raise {A}.
Arguments Starve {A}.

Definition M (A : Type) : Type := list Q → Outcome A.

#[export] Instance M_ret : MRet M := λ A a rs, Done a rs.
#[export] Instance M_bind : MBind M := λ A B k m rs,
  match m rs with
  | Done a rs' => k a rs'
  | Raise => Raise
  | Starve => Starve
  end.

(** [Math.random()]: the next result of the supply. *)
Definition Math_random : M Q := λ rs,
  match rs with
  | r :: rs' => Done r rs'
  | [] => Starve
  end.

(** A value that may be [undefined]; reading a property of [undefined]
    throws. *)
Definition defined {A} (o : option A) : M A := λ rs,
  match o with
  | Some a => Done a rs
  | None => Raise
  end.

(** [Math.floor(r * n)] for an integer [n]. *)
Definition floor_scaled (r : Q) (n : Z) : Z := Qfloor (r * inject_Z n).

(** What the language promises of [Math.random()]: a number in [[0, 1)]. *)
Definition unit_interval (r : Q) : Prop := (0 <= r)%Q ∧ (r < 1)%Q.

(** ** Point (lines 41-80) *)

Record Point := mkPoint { x : Z; y : Z }.

(** [randRange] of [Point.newRandom], line 50. *)
Definition randRange (low hi : Z) : M Z :=
  r ← Math_random; mret (low + floor_scaled r (hi - low))%Z.

Definition Point_newRandom : M Point :=
  rx ← randRange 1 WIDTH;
  ry ← randRange 1 HEIGHT;
  mret (mkPoint rx ry).

Definition isOutOfBound (p : Point) : bool :=
  (x p <=? 0)%Z || (WIDTH <=? x p)%Z || (y p <=? 0)%Z || (HEIGHT <=? y p)%Z.

(** ** Pellet (lines 85-102) *)

Record Pellet := mkPellet { pt : Point }.

Definition new_Pellet (px py : Z) : Pellet := mkPellet (mkPoint px py).

Definition Pellet_newRandom : M Pellet :=
  p ← Point_newRandom; mret (new_Pellet (x p) (y p)).

(** ** Objects passed where a point is expected

    [Snake.contains(pt)] reads [pt.x] and [pt.y] of whatever object it is
    given.  A [Point] has both properties; a [Pellet] has only [pt], so both
    reads give [undefined] ([None]). *)
Inductive Obj :=
  | OfPoint (p : Point)
  | OfPellet (f : Pellet).

Definition prop_x (o : Obj) : option Z :=
  match o with OfPoint p => Some (x p) | OfPellet _ => None end.

Definition prop_y (o : Obj) : option Z :=
  match o with OfPoint p => Some (y p) | OfPellet _ => None end.

(** [a === b] on values that are numbers or [undefined]. *)
Definition strict_eq (a b : option Z) : bool :=
  match a, b with
  | Some m, Some n => (m =? n)%Z
  | None, None => true
  | _, _ => false
  end.

(** ** Directions: the strings "left", "right", "up", "down" *)

Inductive Dir := Left | Right | Up | Down.

#[export] Instance Dir_eq_dec : EqDecision Dir.
Proof. solve_decision. Defined.

Definition Dir_eqb (a b : Dir) : bool := bool_decide (a = b).

(** ** Snake (lines 115-245) and its subclasses (lines 249-323)

    One record holds an instance of any of the three classes; [cls] is the
    class of the object, on which the overridden methods
    [determineNextMove] and [growSnakeBy] dispatch.  [pastMoves] and
    [sameMoves] are the two properties that only [ImpatientSnake] adds. *)

Inductive SnakeClass := ClsSnake | ClsRandomGrowthSnake | ClsImpatientSnake.

#[export] Instance SnakeClass_eq_dec : EqDecision SnakeClass.
Proof. solve_decision. Defined.

Record Snake := mkSnake {
  cls : SnakeClass;
  color : string;
  keymap : gmap string Dir;
  parts : list Point;
  dir : Dir;
  nextDir : Dir;
  growBy : Z;
  pastMoves : list Dir;
  sameMoves : nat
}.

Definition set_parts (v : list Point) (s : Snake) : Snake :=
  mkSnake (cls s) (color s) (keymap s) v (dir s) (nextDir s) (growBy s)
          (pastMoves s) (sameMoves s).
Definition set_dir (v : Dir) (s : Snake) : Snake :=
  mkSnake (cls s) (color s) (keymap s) (parts s) v (nextDir s) (growBy s)
          (pastMoves s) (sameMoves s).
Definition set_nextDir (v : Dir) (s : Snake) : Snake :=
  mkSnake (cls s) (color s) (keymap s) (parts s) (dir s) v (growBy s)
          (pastMoves s) (sameMoves s).
Definition set_growBy (v : Z) (s : Snake) : Snake :=
  mkSnake (cls s) (color s) (keymap s) (parts s) (dir s) (nextDir s) v
          (pastMoves s) (sameMoves s).
Definition set_pastMoves (v : list Dir) (s : Snake) : Snake :=
  mkSnake (cls s) (color s) (keymap s) (parts s) (dir s) (nextDir s)
          (growBy s) v (sameMoves s).

(** The three constructors. *)
Definition new_Snake (c : string) (km : gmap string Dir) (start : Point)
    (d : Dir) : Snake :=
  mkSnake ClsSnake c km [start] d d 0 [] 0.

Definition new_RandomGrowthSnake (c : string) (km : gmap string Dir)
    (start : Point) (d : Dir) : Snake :=
  mkSnake ClsRandomGrowthSnake c km [start] d d 0 [] 0.

Definition new_ImpatientSnake (c : string) (km : gmap string Dir)
    (start : Point) (d : Dir) : Snake :=
  mkSnake ClsImpatientSnake c km [start] d d 0 [d] 8.

(** [contains(pt)], line 133. *)
Definition contains (s : Snake) (o : Obj) : bool :=
  existsb (λ me, strict_eq (Some (x me)) (prop_x o)
                 && strict_eq (Some (y me)) (prop_y o)) (parts s).

(** [head()], line 139: [this.parts[0]], [undefined] on an empty array. *)
Definition head (s : Snake) : option Point := parts s !! 0%nat.

Definition checkCrashIntoWall (s : Snake) : M bool :=
  h ← defined (head s); mret (isOutOfBound h).

(** [checkCrashIntoSelf()], line 151.  On an empty [parts] the head is
    [undefined] but the sliced body is empty too, so the callback of [some]
    never reads it and the result is [false]. *)
Definition checkCrashIntoSelf (s : Snake) : bool :=
  let snakeBody := drop 1 (parts s) in
  match head s with
  | Some h => existsb (λ me, (x me =? x h)%Z && (y me =? y h)%Z) snakeBody
  | None => false
  end.

(** *** Steering (lines 191-221) *)

Definition checkIsNinetyDegree (s : Snake) (d : Dir) : bool :=
  match dir s with
  | Left | Right => Dir_eqb d Up || Dir_eqb d Down
  | Up | Down => Dir_eqb d Left || Dir_eqb d Right
  end.

Definition changeDir (d : Dir) (s : Snake) : Snake := set_nextDir d s.

Definition handleKey (key : string) (s : Snake) : Snake :=
  match keymap s !! key with
  | Some direction =>
      if checkIsNinetyDegree s direction then changeDir direction s else s
  | None => s
  end.

(** *** [determineNextMove] of the base class (line 182) *)

Definition Snake_determineNextMove (s : Snake) : Snake :=
  set_dir (nextDir s) s.

(** *** ImpatientSnake (lines 265-323) *)

(** [arr.slice(start)]: a negative [start] counts from the end. *)
Definition slice_from {A} (start : Z) (l : list A) : list A :=
  if (start <? 0)%Z
  then drop (Z.to_nat (Z.max (Z.of_nat (length l) + start) 0)) l
  else drop (Z.to_nat start) l.

Definition checkPastMovesAllSame (s : Snake) : bool :=
  let start := (Z.of_nat (length (pastMoves s)) - Z.of_nat (sameMoves s))%Z in
  let pastEightMoves := slice_from start (pastMoves s) in
  forallb (λ d, bool_decide (Some d = pastEightMoves !! 0%nat)) pastEightMoves.

Definition randomMove (d : Dir) : M Dir :=
  r ← Math_random;
  let randomMove := (1 + floor_scaled r 2)%Z in
  mret (match d with
        | Left | Right => if (randomMove =? 1)%Z then Up else Down
        | Up | Down => if (randomMove =? 1)%Z then Left else Right
        end).

Definition ImpatientSnake_determineNextMove (s : Snake) : M Snake :=
  s1 ← (if (sameMoves s <=? length (pastMoves s))%nat
            && checkPastMovesAllSame s
        then d ← randomMove (nextDir s); mret (set_nextDir d s)
        else mret s);
  let s2 := set_dir (nextDir s1) s1 in
  mret (set_pastMoves (pastMoves s2 ++ [dir s2]) s2).

(** *** Method dispatch on the class of the object *)

Definition determineNextMove (s : Snake) : M Snake :=
  match cls s with
  | ClsImpatientSnake => ImpatientSnake_determineNextMove s
  | ClsSnake | ClsRandomGrowthSnake => mret (Snake_determineNextMove s)
  end.

Definition Snake_growSnakeBy (s : Snake) : Snake :=
  set_growBy (growBy s + 2) s.

Definition RandomGrowthSnake_growSnakeBy (s : Snake) : M Snake :=
  r ← Math_random;
  let randomGrowth := floor_scaled r MAX_SNAKE_GROWTH in
  mret (set_growBy (growBy s + randomGrowth) s).

Definition growSnakeBy (s : Snake) : M Snake :=
  match cls s with
  | ClsRandomGrowthSnake => RandomGrowthSnake_growSnakeBy s
  | ClsSnake | ClsImpatientSnake => mret (Snake_growSnakeBy s)
  end.

(** *** [move()], line 159 *)

Definition step_from (h : Point) (d : Dir) : Point :=
  match d with
  | Left => mkPoint (x h - 1) (y h)
  | Right => mkPoint (x h + 1) (y h)
  | Up => mkPoint (x h) (y h - 1)
  | Down => mkPoint (x h) (y h + 1)
  end.

Definition move (s : Snake) : M Snake :=
  h ← defined (head s);
  s1 ← determineNextMove s;
  let pt := step_from h (dir s1) in
  let s2 := set_parts (pt :: parts s1) s1 in
  mret (if (growBy s2 =? 0)%Z
        then set_parts (removelast (parts s2)) s2
        else set_growBy (growBy s2 - 1) s2).

(** *** [eats(food)], line 231

    [head.x] and [head.y] are read inside the callback of [food.find], so an
    [undefined] head throws at the first pellet that is tried, and not at
    all when [food] is empty. *)

Definition eats (fd : list Pellet) (s : Snake) : M (option Pellet * Snake) :=
  pellet ← match fd with
           | [] => mret None
           | _ :: _ =>
               h ← defined (head s);
               mret (List.find
                       (λ f, (x (pt f) =? x h)%Z && (y (pt f) =? y h)%Z) fd)
           end;
  match pellet with
  | Some p => s' ← growSnakeBy s; mret (Some p, s')
  | None => mret (None, s)
  end.

(** ** The browser

    Only what [Game.start] and [Game.tick] touch: the listeners registered on
    [document] and on [window], and the interval timers that are still
    active.  A function object has an identity: [f.bind(this)] makes a new
    object at every call, different from the method [f] it wraps. *)

Inductive Target := document | window.
Inductive Method := KeyListener | Tick.
Inductive Fn :=
  | Unbound (m : Method)             (* [this.m], the method itself *)
  | Bound (id : nat) (m : Method).   (* a result of [this.m.bind(this)] *)

Record Listener := mkListener {
  l_target : Target;
  l_type : string;
  l_fn : Fn
}.

#[export] Instance Target_eq_dec : EqDecision Target.
Proof. solve_decision. Defined.
#[export] Instance Method_eq_dec : EqDecision Method.
Proof. solve_decision. Defined.
#[export] Instance Fn_eq_dec : EqDecision Fn.
Proof. solve_decision. Defined.
#[export] Instance Listener_eq_dec : EqDecision Listener.
Proof. solve_decision. Defined.

Record Browser := mkBrowser {
  listeners : list Listener;
  intervals : gmap nat Fn;   (* active timers, by id *)
  nextFn : nat;              (* identity of the next bound function *)
  nextTimer : nat            (* id of the next timer *)
}.

Definition bind_this (m : Method) (b : Browser) : Fn * Browser :=
  (Bound (nextFn b) m,
   mkBrowser (listeners b) (intervals b) (S (nextFn b)) (nextTimer b)).

(** Registering the same function twice for the same event of the same
    target has no effect. *)
Definition addEventListener (t : Target) (ty : string) (f : Fn)
    (b : Browser) : Browser :=
  let l := mkListener t ty f in
  if bool_decide (l ∈ listeners b) then b
  else mkBrowser (listeners b ++ [l]) (intervals b) (nextFn b) (nextTimer b).

(** Removes the listener with this target, this type and this very function
    object, if there is one. *)
Definition removeEventListener (t : Target) (ty : string) (f : Fn)
    (b : Browser) : Browser :=
  mkBrowser
    (List.filter (λ l, negb (bool_decide (l = mkListener t ty f)))
                 (listeners b))
    (intervals b) (nextFn b) (nextTimer b).

Definition setInterval (f : Fn) (b : Browser) : nat * Browser :=
  (nextTimer b,
   mkBrowser (listeners b) (<[nextTimer b := f]> (intervals b)) (nextFn b)
             (S (nextTimer b))).

(** [clearInterval(id)]; [id] is [null] before [start()]. *)
Definition clearInterval (id : option nat) (b : Browser) : Browser :=
  match id with
  | Some i =>
      mkBrowser (listeners b) (delete i (intervals b)) (nextFn b) (nextTimer b)
  | None => b
  end.

(** ** Game (lines 331-419) *)

Record Game := mkGame {
  snake : Snake;
  food : list Pellet;
  numFood : nat;
  timerId : option nat
}.

Definition set_snake (v : Snake) (g : Game) : Game :=
  mkGame v (food g) (numFood g) (timerId g).
Definition set_food (v : list Pellet) (g : Game) : Game :=
  mkGame (snake g) v (numFood g) (timerId g).
Definition set_timerId (v : option nat) (g : Game) : Game :=
  mkGame (snake g) (food g) (numFood g) v.

Definition new_Game (s : Snake) (n : nat) : Game := mkGame s [] n None.

(** [start()], line 344. *)
Definition start (g : Game) (b : Browser) : Game * Browser :=
  let '(onKey, b1) := bind_this KeyListener b in
  let b2 := addEventListener document "keydown" onKey b1 in
  let '(onTick, b3) := bind_this Tick b2 in
  let '(id, b4) := setInterval onTick b3 in
  (set_timerId (Some id) g, b4).

(** [isPelletOnSnake(pellet)], line 365: the pellet itself is handed to
    [contains]. *)
Definition isPelletOnSnake (g : Game) (pellet : Pellet) : bool :=
  contains (snake g) (OfPellet pellet).

(** A [while] loop whose body draws from the supply at every turn: it cannot
    take more turns than the supply has results, so [length rs] turns are
    enough to either leave the loop or use the supply up. *)
Fixpoint while_loop {St : Type} (turns : nat) (cond : St → bool)
    (body : St → M St) (s : St) : M St :=
  if cond s then
    match turns with
    | O => λ _, Starve
    | S n => s' ← body s; while_loop n cond body s'
    end
  else mret s.

(** [refillFood()], line 351. *)
Definition refillFood_body (g : Game) : M Game :=
  newPellet ← Pellet_newRandom;
  mret (if negb (isPelletOnSnake g newPellet)
        then set_food (food g ++ [newPellet]) g
        else g).

Definition refillFood (g : Game) : M Game := λ rs,
  while_loop (length rs) (λ g, (length (food g) <? numFood g)%nat)
             refillFood_body g rs.

(** [keyListener(evt)], line 372, on [evt.key]. *)
Definition keyListener (key : string) (g : Game) : Game :=
  set_snake (handleKey key (snake g)) g.

(** [removeFood(pellet)], line 380. *)
Definition removeFood (pellet : Pellet) (g : Game) : Game :=
  set_food
    (List.filter (λ f, negb (x (pt f) =? x (pt pellet))%Z
                       && negb (y (pt f) =? y (pt pellet))%Z) (food g))
    g.

(** The test of lines 397-398; [||] evaluates its left operand first. *)
Definition isDead (g : Game) : M bool :=
  crashedIntoWall ← checkCrashIntoWall (snake g);
  mret (crashedIntoWall || checkCrashIntoSelf (snake g)).

(** [tick()], line 393.  The calls that only draw on the canvas
    ([ctx.clearRect], [draw]) change nothing that is modelled here. *)
Definition tick (g : Game) (b : Browser) : M (Game * Browser) :=
  dead ← isDead g;
  if (dead : bool) then
    let b1 := clearInterval (timerId g) b in
    let b2 := removeEventListener window "keydown" (Unbound KeyListener) b1 in
    mret (g, b2)
  else
    s1 ← move (snake g);
    r ← eats (food g) s1;
    let g1 := set_snake r.2 g in
    let g2 := match r.1 with
              | Some pellet => removeFood pellet g1
              | None => g1
              end in
    g3 ← refillFood g2;
    mret (g3, b).

(** ** What the browser does with the game

    A timer that is still active calls its function; a key press is
    dispatched to the [keydown] listeners of [document] and then, bubbling,
    to those of [window]. *)

Inductive Event :=
  | TimerFires (id : nat)
  | KeyDown (key : string).

(** Calling a function object.  A bound method runs on the game; the method
    itself, called by the browser, has a [this] that is not the game, and
    reading [this.snake.handleKey] or [this.snake.checkCrashIntoWall] on it
    throws.  [key] is [evt.key] when the caller passes an event. *)
Definition invoke (f : Fn) (key : option string) (gb : Game * Browser)
    : M (Game * Browser) :=
  match f with
  | Bound _ KeyListener =>
      k ← defined key; mret (keyListener k gb.1, gb.2)
  | Bound _ Tick => tick gb.1 gb.2
  | Unbound _ => λ _, Raise
  end.

(** An exception that escapes a callback is reported by the browser, and the
    event loop goes on.  Every [throw] of this program happens before the
    callback has written anything ([tick] reads the head first, [move] too,
    and [eats] runs after [move], on a body that is not empty), so the state
    is the one before the call. *)
Definition call (f : Fn) (key : option string) (gb : Game * Browser)
    : M (Game * Browser) := λ rs,
  match invoke f key gb rs with
  | Raise => Done gb rs
  | o => o
  end.

Fixpoint call_all (fs : list Fn) (key : option string) (gb : Game * Browser)
    : M (Game * Browser) :=
  match fs with
  | [] => mret gb
  | f :: fs' => gb' ← call f key gb; call_all fs' key gb'
  end.

Definition listeners_on (t : Target) (ty : string) (b : Browser) : list Fn :=
  l_fn <$> List.filter
             (λ l, bool_decide (l_target l = t) && bool_decide (l_type l = ty))
             (listeners b).

Definition deliver (e : Event) (gb : Game * Browser) : M (Game * Browser) :=
  match e with
  | TimerFires id =>
      match intervals gb.2 !! id with
      | Some f => call f None gb
      | None => mret gb
      end
  | KeyDown key =>
      call_all (listeners_on document "keydown" gb.2
                ++ listeners_on window "keydown" gb.2) (Some key) gb
  end.

Fixpoint run (es : list Event) (gb : Game * Browser) : M (Game * Browser) :=
  match es with
  | [] => mret gb
  | e :: es' => gb' ← deliver e gb; run es' gb'
  end.

(** ** Vocabulary of the specification *)

Definition horizontal (d : Dir) : bool :=
  match d with Left | Right => true | Up | Down => false end.

(** Two headings are perpendicular when exactly one of them is horizontal. *)
Definition perpendicular (a b : Dir) : bool :=
  xorb (horizontal a) (horizontal b).

Definition reverse (d : Dir) : Dir :=
  match d with Left => Right | Right => Left | Up => Down | Down => Up end.

(** The game with another pending heading: all that a key press may
    change. *)
Definition with_nextDir (d : Dir) (g : Game) : Game :=
  set_snake (set_nextDir d (snake g)) g.

(** The test of line 279: the impatient snake has gone [sameMoves] times the
    same way. *)
Definition bored (s : Snake) : bool :=
  (sameMoves s <=? length (pastMoves s))%nat && checkPastMovesAllSame s.

(** The pellets that [Pellet.newRandom] makes of a supply, two results
    each. *)
Fixpoint pellets_of (rs : list Q) : list Pellet :=
  match rs with
  | rx :: ry :: rs' =>
      new_Pellet (1 + floor_scaled rx (WIDTH - 1))
                 (1 + floor_scaled ry (HEIGHT - 1)) :: pellets_of rs'
  | _ => []
  end.

(** What a run returned, if it returned. *)
Definition returned {A} (o : Outcome A) : option A :=
  match o with Done a _ => Some a | _ => None end.

(** ** Concrete objects *)

(** The key map of [snake1], line 427. *)
Definition arrows : gmap string Dir :=
  <["ArrowLeft" := Left]> (<["ArrowRight" := Right]>
    (<["ArrowUp" := Up]> (<["ArrowDown" := Down]> ∅))).

(** [snake1] and [game], lines 424-441. *)
Definition snake1 : Snake :=
  new_ImpatientSnake "yellow" arrows (mkPoint 20 20) Right.

Definition game : Game := new_Game snake1 3.

(** A browser in which nothing is registered yet. *)
Definition fresh_browser : Browser := mkBrowser [] ∅ 0 0.

(** A three-cell snake heading right. *)
Definition turning_snake : Snake :=
  mkSnake ClsSnake "yellow" arrows
          [mkPoint 5 5; mkPoint 4 5; mkPoint 3 5] Right Right 0 [] 0.

(** A snake whose head has reached the left wall at (0,15). *)
Definition crashed_snake : Snake :=
  mkSnake ClsSnake "yellow" arrows
          [mkPoint 0 15; mkPoint 1 15] Left Left 0 [] 0.

Definition crashed_game : Game :=
  mkGame crashed_snake [new_Pellet 7 7; new_Pellet 3 9; new_Pellet 12 4] 3
         None.

(** An impatient snake heading up, as constructed. *)
Definition climber : Snake :=
  new_ImpatientSnake "yellow" arrows (mkPoint 20 20) Up.

(** [n] moves in a row, none of which may draw from [Math.random()]. *)
Fixpoint moves (n : nat) (s : Snake) : option Snake :=
  match n with
  | O => Some s
  | S k => match move s [] with
           | Done s' _ => moves k s'
           | _ => None
           end
  end.




(** The first tick of [game], for six results of [Math.random()]. *)
Definition first_tick : option (Game * Browser) :=
  returned
    (tick game fresh_browser [7 # 10; 67 # 100; 1 # 2; 1 # 2; 0; 0]%Q).

(** A board with four pellets, the snake's head on the first. *)
Definition larder : Game :=
  mkGame turning_snake
         [new_Pellet 5 5; new_Pellet 5 7; new_Pellet 9 5; new_Pellet 8 8]
         4 None.

(** A board that lacks one pellet. *)
Definition stocked_game : Game :=
  mkGame snake1 [new_Pellet 3 3] 2 None.

(** The crashed game once started, its terminal tick, and a key press after
    it. *)
Definition started_crashed : Game * Browser :=
  start crashed_game fresh_browser.

Definition after_crash : option (Game * Browser) :=
  returned (tick started_crashed.1 started_crashed.2 []).

Definition key_after_crash : option (Game * Browser) :=
  gb ← after_crash; returned (deliver (KeyDown "ArrowUp") gb []).

(** ** Further vocabulary and objects *)

(** The test of [eats]: the pellet is at the point. *)
Definition at_point (p : Point) (f : Pellet) : bool :=
  (x (pt f) =? x p)%Z && (y (pt f) =? y p)%Z.

(** Two cells that touch: one step apart along one axis. *)
Definition adjacent (p q : Point) : Prop :=
  (Z.abs (x p - x q) + Z.abs (y p - y q) = 1)%Z.

(** A body in one piece: every cell touches the next. *)
Fixpoint connected (l : list Point) : Prop :=
  match l with
  | p :: t => match t with
              | q :: _ => adjacent p q ∧ connected t
              | [] => True
              end
  | [] => True
  end.

(** The keys pressed between two ticks, in order. *)
Definition press_keys (ks : list string) (s : Snake) : Snake :=
  foldl (λ s k, handleKey k s) s ks.

Definition rg_snake : Snake :=
  new_RandomGrowthSnake "red" arrows (mkPoint 10 10) Right.

(** A snake object whose [parts] array has been emptied. *)
Definition hollow_snake : Snake :=
  mkSnake ClsSnake "yellow" arrows [] Right Right 0 [] 0.

(** A new snake that has just eaten. *)
Definition fed_snake : Snake :=
  set_growBy 2 (new_Snake "yellow" arrows (mkPoint 5 5) Right).

(** The climber with a full history, after the left arrow was accepted. *)
Definition bored_climber : Snake :=
  set_nextDir Left (set_pastMoves (replicate 8 Up) climber).

Definition eight_draws : list Q :=
  [7 # 10; 67 # 100; 1 # 2; 1 # 2; 0; 0; 0; 0]%Q.

(** A live game whose snake is one cell from the left wall, heading to it. *)
Definition wall_runner : Game :=
  mkGame (mkSnake ClsSnake "yellow" arrows [mkPoint 1 15; mkPoint 2 15]
            Left Left 0 [] 0)
         [new_Pellet 7 7; new_Pellet 3 9; new_Pellet 12 4] 3 None.

(** * Properties *)

(** Unfolds the monad of the embedding. *)
Ltac run_M := unfold mbind, M_bind, mret, M_ret, defined in *.

(** ** Grid geometry *)

(** C9: [isOutOfBound] is true exactly on and beyond the boundary ring, and
    false exactly for the points with both coordinates strictly inside. *)
Theorem isOutOfBound_iff (p : Point) :
  (isOutOfBound p = true
   ↔ (x p <= 0 ∨ x p >= WIDTH ∨ y p <= 0 ∨ y p >= HEIGHT)%Z)
  ∧ (isOutOfBound p = false
     ↔ (0 < x p < WIDTH ∧ 0 < y p < HEIGHT)%Z).
Proof.
  unfold isOutOfBound. split.
  - rewrite !orb_true_iff, !Z.leb_le. lia.
  - rewrite !orb_false_iff, !Z.leb_gt. lia.
Qed.

(** ** Resolving the heading and moving *)

Lemma determineNextMove_base (s : Snake) (rs : list Q) :
  cls s ≠ ClsImpatientSnake →
  determineNextMove s rs = Done (set_dir (nextDir s) s) rs.
Proof. unfold determineNextMove. by destruct (cls s). Qed.

Lemma randomMove_draws (d : Dir) (r : Q) (rs : list Q) :
  ∃ d', randomMove d (r :: rs) = Done d' rs ∧ perpendicular d d' = true.
Proof.
  unfold randomMove, Math_random. run_M.
  destruct d, (1 + floor_scaled r 2 =? 1)%Z;
    (eexists; split; reflexivity).
Qed.

Lemma ImpatientSnake_determineNextMove_bored (s : Snake) (r : Q)
    (rs : list Q) :
  bored s = true →
  ∃ d, perpendicular (nextDir s) d = true
    ∧ ImpatientSnake_determineNextMove s (r :: rs) =
        Done (set_pastMoves (pastMoves s ++ [d])
                (set_dir d (set_nextDir d s))) rs.
Proof.
  intros Hb. destruct (randomMove_draws (nextDir s) r rs) as (d & Hd & Hperp).
  exists d. split; [done|].
  unfold ImpatientSnake_determineNextMove. fold (bored s). rewrite Hb.
  run_M. by rewrite Hd.
Qed.

Lemma ImpatientSnake_determineNextMove_calm (s : Snake) (rs : list Q) :
  bored s = false →
  ImpatientSnake_determineNextMove s rs =
    Done (set_pastMoves (pastMoves s ++ [nextDir s])
            (set_dir (nextDir s) s)) rs.
Proof.
  intros Hb. unfold ImpatientSnake_determineNextMove. fold (bored s).
  by rewrite Hb.
Qed.

(** Whatever the class, [determineNextMove] returns when one result of
    [Math.random()] is at hand, leaves [dir] equal to [nextDir], and touches
    neither the body nor the growth counter.  The pending heading is the one
    the snake had, and nothing is drawn, unless the snake is a bored
    [ImpatientSnake]: then it is what [randomMove] draws from the pending
    heading. *)
Lemma determineNextMove_returns (s : Snake) (rs : list Q) :
  (cls s = ClsImpatientSnake → rs ≠ []) →
  ∃ s1 rs1, determineNextMove s rs = Done s1 rs1
    ∧ dir s1 = nextDir s1
    ∧ parts s1 = parts s ∧ growBy s1 = growBy s
    ∧ (cls s ≠ ClsImpatientSnake ∨ bored s = false →
       nextDir s1 = nextDir s ∧ rs1 = rs)
    ∧ (cls s = ClsImpatientSnake → bored s = true →
       randomMove (nextDir s) rs = Done (nextDir s1) rs1
       ∧ perpendicular (nextDir s) (nextDir s1) = true).
Proof.
  intros Hrs. destruct (decide (cls s = ClsImpatientSnake)) as [Hc|Hc].
  - unfold determineNextMove. rewrite Hc. destruct (bored s) eqn:Hb.
    + destruct rs as [|r rs]; [by destruct Hrs|].
      destruct (randomMove_draws (nextDir s) r rs) as (d & Hd & Hperp).
      unfold ImpatientSnake_determineNextMove. fold (bored s). rewrite Hb.
      run_M. rewrite Hd.
      eexists _, _. split; [reflexivity|]. cbn.
      split; [done|]. split; [done|]. split; [done|].
      split; [by intros [?|?]|done].
    + rewrite ImpatientSnake_determineNextMove_calm by done.
      eexists _, _. split; [reflexivity|]. cbn.
      split; [done|]. split; [done|]. split; [done|]. split; done.
  - rewrite determineNextMove_base by done.
    eexists _, _. split; [reflexivity|]. cbn.
    split; [done|]. split; [done|]. split; [done|]. split; done.
Qed.

Lemma length_removelast_cons {A} (a : A) (l : list A) :
  length (removelast (a :: l)) = length l.
Proof.
  revert a. induction l as [|b l IH]; intros a; [done|].
  change (removelast (a :: b :: l)) with (a :: removelast (b :: l)).
  cbn [length]. by rewrite IH.
Qed.

(** [move] in one equation, given what [determineNextMove] returned. *)
Lemma move_returns (s s1 : Snake) (h : Point) (t : list Point)
    (rs rs1 : list Q) :
  parts s = h :: t →
  determineNextMove s rs = Done s1 rs1 →
  parts s1 = parts s →
  move s rs =
    Done (if (growBy s1 =? 0)%Z
          then set_parts (removelast (step_from h (dir s1) :: h :: t)) s1
          else set_growBy (growBy s1 - 1)
                 (set_parts (step_from h (dir s1) :: h :: t) s1)) rs1.
Proof.
  intros Hp Hdet Hparts. unfold move, head. rewrite Hp. run_M.
  cbn [lookup list_lookup]. rewrite Hdet. cbn [growBy set_parts parts].
  rewrite Hparts, Hp. by destruct (growBy s1 =? 0)%Z, s1.
Qed.

(** The constructors make a body of one cell. *)
Lemma new_snakes_have_a_head (c : string) (km : gmap string Dir)
    (start : Point) (d : Dir) :
  parts (new_Snake c km start d) = [start]
  ∧ parts (new_RandomGrowthSnake c km start d) = [start]
  ∧ parts (new_ImpatientSnake c km start d) = [start].
Proof. done. Qed.

(** C4: [move] first resolves the heading: [dir] becomes [nextDir], which is
    the [nextDir] the snake had for a [Snake], a [RandomGrowthSnake] and an
    [ImpatientSnake] that is not bored; a bored [ImpatientSnake] first
    replaces [nextDir] by what [randomMove] draws from it, a perpendicular
    direction.  Then [move] puts a new head one cell from the old one in the
    resolved direction.  With [growBy = 0] the last cell is dropped and the
    length is kept; otherwise [growBy] goes down by one and the length up by
    one.  The body is never empty afterwards. *)
Theorem move_advances (s : Snake) (h : Point) (t : list Point)
    (rs : list Q) :
  parts s = h :: t →
  (cls s = ClsImpatientSnake → rs ≠ []) →
  ∃ s' rs' pt, move s rs = Done s' rs'
    ∧ dir s' = nextDir s'
    ∧ (cls s ≠ ClsImpatientSnake ∨ bored s = false →
       nextDir s' = nextDir s ∧ rs' = rs)
    ∧ (cls s = ClsImpatientSnake → bored s = true →
       randomMove (nextDir s) rs = Done (nextDir s') rs'
       ∧ perpendicular (nextDir s) (nextDir s') = true)
    ∧ pt = match dir s' with
           | Left => mkPoint (x h - 1) (y h)
           | Right => mkPoint (x h + 1) (y h)
           | Up => mkPoint (x h) (y h - 1)
           | Down => mkPoint (x h) (y h + 1)
           end
    ∧ head s' = Some pt
    ∧ (growBy s = 0%Z →
         parts s' = removelast (pt :: h :: t)
         ∧ length (parts s') = length (parts s)
         ∧ growBy s' = 0%Z)
    ∧ (growBy s ≠ 0%Z →
         parts s' = pt :: h :: t
         ∧ length (parts s') = S (length (parts s))
         ∧ growBy s' = (growBy s - 1)%Z)
    ∧ (1 ≤ length (parts s'))%nat.
Proof.
  intros Hp Hrs.
  destruct (determineNextMove_returns s rs Hrs)
    as (s1 & rs1 & Hdet & Hdir & Hparts & Hgrow & Hcalm & Hbored).
  rewrite (move_returns s s1 h t rs rs1 Hp Hdet Hparts), Hgrow, Hp.
  assert (Hpt : step_from h (dir s1) =
                match dir s1 with
                | Left => mkPoint (x h - 1) (y h)
                | Right => mkPoint (x h + 1) (y h)
                | Up => mkPoint (x h) (y h - 1)
                | Down => mkPoint (x h) (y h + 1)
                end) by reflexivity.
  destruct (growBy s =? 0)%Z eqn:Hz;
    [apply Z.eqb_eq in Hz | apply Z.eqb_neq in Hz];
    eexists _, _, (step_from h (dir s1));
    (split; [reflexivity|]);
    cbn [dir nextDir parts growBy set_parts set_growBy head];
    (split; [exact Hdir|]); (split; [exact Hcalm|]);
    (split; [exact Hbored|]); (split; [exact Hpt|]).
  - split; [by destruct t|]. split; [|split; [done|]].
    + intros _. split; [done|]. split; [apply length_removelast_cons|].
      congruence.
    + rewrite length_removelast_cons. cbn. lia.
  - split; [done|]. split; [done|]. split; [|cbn; lia].
    intros _. done.
Qed.

Lemma move_advances_witness :
  ∃ s', move (handleKey "ArrowUp" snake1) [1 # 2] = Done s' [1 # 2]
        ∧ dir s' = Up
        ∧ head s' = Some (mkPoint 20 19)
        ∧ length (parts s') = 1%nat.
Proof.
  destruct (move_advances (handleKey "ArrowUp" snake1) (mkPoint 20 20) []
              [1 # 2])
    as (s' & rs' & pt & Hm & Hd & Hcalm & _ & Hpt & Hh & Hz & _).
  - reflexivity.
  - discriminate.
  - destruct Hcalm as [Hn ->]; [right; reflexivity|].
    exists s'. split; [exact Hm|].
    assert (Hup : dir s' = Up) by (rewrite Hd, Hn; reflexivity).
    split; [exact Hup|].
    destruct (Hz eq_refl) as (_ & Hl & _).
    split; [|exact Hl].
    rewrite Hh, Hpt, Hup. reflexivity.
Defined.

(** ** Steering *)

Lemma perpendicular_checkIsNinetyDegree (s : Snake) (d : Dir) :
  checkIsNinetyDegree s d = perpendicular (dir s) d.
Proof. unfold checkIsNinetyDegree. by destruct (dir s), d. Qed.

Lemma set_nextDir_same (s : Snake) : set_nextDir (nextDir s) s = s.
Proof. by destruct s. Qed.

Lemma handleKey_cases (key : string) (s : Snake) :
  handleKey key s =
    match keymap s !! key with
    | Some d => if perpendicular (dir s) d then set_nextDir d s else s
    | None => s
    end.
Proof.
  unfold handleKey, changeDir. destruct (keymap s !! key) as [d|]; [|done].
  by rewrite perpendicular_checkIsNinetyDegree.
Qed.

Lemma handleKey_set_nextDir (key : string) (s : Snake) :
  handleKey key s = set_nextDir (nextDir (handleKey key s)) s.
Proof.
  rewrite handleKey_cases. destruct (keymap s !! key) as [d|].
  - destruct (perpendicular (dir s) d); by destruct s.
  - by destruct s.
Qed.

Lemma bored_handleKey (key : string) (s : Snake) :
  bored (handleKey key s) = bored s.
Proof. by rewrite handleKey_set_nextDir. Qed.

(** C5: a key changes the snake only if it is mapped to a direction
    perpendicular to the current heading; then only [nextDir] changes, and
    becomes that direction.  [dir] is never written by [handleKey]: it takes
    the pending value at the next [move], for every snake but a bored
    [ImpatientSnake], whose [move] replaces the pending value by what
    [randomMove] draws from it.  An unmapped key, a reversal and a request
    for the current heading leave the snake as it is. *)
Theorem handleKey_only_turns (key : string) (s : Snake) :
  handleKey key s = set_nextDir (nextDir (handleKey key s)) s
  ∧ dir (handleKey key s) = dir s
  ∧ (handleKey key s ≠ s →
     ∃ d, keymap s !! key = Some d ∧ perpendicular (dir s) d = true)
  ∧ (∀ d, keymap s !! key = Some d → perpendicular (dir s) d = true →
          nextDir (handleKey key s) = d)
  ∧ (keymap s !! key = None → handleKey key s = s)
  ∧ (∀ d, keymap s !! key = Some d → d = dir s ∨ d = reverse (dir s) →
          handleKey key s = s)
  ∧ (∀ h t r rs, parts s = h :: t →
       ∃ s' rs', move (handleKey key s) (r :: rs) = Done s' rs'
         ∧ dir s' = nextDir s'
         ∧ (cls s ≠ ClsImpatientSnake ∨ bored s = false →
            dir s' = nextDir (handleKey key s) ∧ rs' = r :: rs)
         ∧ (cls s = ClsImpatientSnake → bored s = true →
            randomMove (nextDir (handleKey key s)) (r :: rs)
            = Done (dir s') rs'
            ∧ perpendicular (nextDir (handleKey key s)) (dir s') = true)).
Proof.
  split; [apply handleKey_set_nextDir|].
  split; [by rewrite handleKey_set_nextDir|].
  split; [|split; [|split; [|split]]].
  - rewrite handleKey_cases. destruct (keymap s !! key) as [d|]; [|done].
    destruct (perpendicular (dir s) d) eqn:Hp; [|done].
    intros _. by exists d.
  - intros d Hk Hp. by rewrite handleKey_cases, Hk, Hp.
  - intros Hk. by rewrite handleKey_cases, Hk.
  - intros d Hk Hd. rewrite handleKey_cases, Hk.
    destruct Hd as [-> | ->]; by destruct (dir s).
  - intros h t r rs Hp.
    rewrite <- (bored_handleKey key s).
    set (s0 := handleKey key s).
    assert (Hp0 : parts s0 = h :: t)
      by (unfold s0; by rewrite handleKey_set_nextDir).
    assert (Hc0 : cls s0 = cls s)
      by (unfold s0; by rewrite handleKey_set_nextDir).
    destruct (determineNextMove_returns s0 (r :: rs))
      as (s1 & rs1 & Hdet & Hdir & Hparts & _ & Hcalm & Hbored); [done|].
    rewrite (move_returns s0 s1 h t (r :: rs) rs1 Hp0 Hdet Hparts).
    eexists _, _. split; [reflexivity|].
    rewrite <- Hc0.
    assert (Hd : dir (if (growBy s1 =? 0)%Z
                      then set_parts
                             (removelast (step_from h (dir s1) :: h :: t)) s1
                      else set_growBy (growBy s1 - 1)
                             (set_parts (step_from h (dir s1) :: h :: t) s1))
                 = dir s1) by (by destruct (growBy s1 =? 0)%Z).
    assert (Hn : nextDir (if (growBy s1 =? 0)%Z
                      then set_parts
                             (removelast (step_from h (dir s1) :: h :: t)) s1
                      else set_growBy (growBy s1 - 1)
                             (set_parts (step_from h (dir s1) :: h :: t) s1))
                 = nextDir s1) by (by destruct (growBy s1 =? 0)%Z).
    rewrite Hd, Hn, Hdir. split; [done|]. split; [exact Hcalm | exact Hbored].
Qed.

Lemma handleKey_only_turns_witness :
  handleKey "ArrowUp" turning_snake ≠ turning_snake
  ∧ nextDir (handleKey "ArrowUp" turning_snake) = Up
  ∧ handleKey "ArrowLeft" turning_snake = turning_snake
  ∧ handleKey "q" turning_snake = turning_snake
  ∧ (∃ s', move (handleKey "ArrowUp" snake1) [1 # 2] = Done s' [1 # 2]
           ∧ dir s' = Up).
Proof.
  destruct (handleKey_only_turns "ArrowUp" turning_snake)
    as (_ & _ & _ & Hacc & _).
  destruct (handleKey_only_turns "ArrowLeft" turning_snake)
    as (_ & _ & _ & _ & _ & Hrev & _).
  destruct (handleKey_only_turns "q" turning_snake)
    as (_ & _ & _ & _ & Hun & _).
  destruct (handleKey_only_turns "ArrowUp" snake1)
    as (_ & _ & _ & _ & _ & _ & Hmove).
  split; [|split; [|split; [|split]]].
  - intros H. apply (f_equal nextDir) in H. vm_compute in H. discriminate.
  - apply Hacc; reflexivity.
  - apply (Hrev Left); [reflexivity | right; reflexivity].
  - apply Hun. reflexivity.
  - destruct (Hmove (mkPoint 20 20) [] (1 # 2) [] eq_refl)
      as (s' & rs' & Hm & _ & Hcalm & _).
    destruct Hcalm as [Hd ->]; [right; reflexivity|].
    exists s'. split; [exact Hm|]. rewrite Hd. reflexivity.
Defined.

(** C2, as stated, fails: with the three-cell snake heading right, the
    request for up is accepted and the request for down that follows it
    before the next tick is accepted as well, so [nextDir] does not stay
    up. *)
Lemma second_turn_not_rejected :
  parts turning_snake = [mkPoint 5 5; mkPoint 4 5; mkPoint 3 5]
  ∧ dir turning_snake = Right
  ∧ nextDir (handleKey "ArrowUp" turning_snake) = Up
  ∧ ¬ (handleKey "ArrowDown" (handleKey "ArrowUp" turning_snake)
       = handleKey "ArrowUp" turning_snake
       ∨ nextDir (handleKey "ArrowDown" (handleKey "ArrowUp" turning_snake))
         = Up).
Proof.
  repeat split. intros [H | H].
  - apply (f_equal nextDir) in H. vm_compute in H. discriminate.
  - vm_compute in H. discriminate.
Qed.

(** C2, amended: the check of the second request reads [dir], which is still
    right, and not the [nextDir] that the first request has just set; down is
    perpendicular to right, so the second request is accepted too and
    [nextDir] ends as down.  [dir] stays right until the next move. *)
Theorem second_turn_checked_against_dir (s : Snake) (ku kd : string) :
  dir s = Right →
  keymap s !! ku = Some Up →
  keymap s !! kd = Some Down →
  nextDir (handleKey ku s) = Up
  ∧ dir (handleKey ku s) = Right
  ∧ checkIsNinetyDegree (handleKey ku s) Down = true
  ∧ nextDir (handleKey kd (handleKey ku s)) = Down
  ∧ dir (handleKey kd (handleKey ku s)) = Right
  ∧ handleKey kd (handleKey ku s) = set_nextDir Down s.
Proof.
  intros Hd Hu Hk.
  assert (H1 : handleKey ku s = set_nextDir Up s).
  { rewrite handleKey_cases, Hu, Hd. reflexivity. }
  rewrite H1.
  assert (H2 : handleKey kd (set_nextDir Up s) = set_nextDir Down s).
  { rewrite handleKey_cases. cbn. rewrite Hk, Hd. reflexivity. }
  rewrite H2. unfold checkIsNinetyDegree. cbn. rewrite Hd. done.
Qed.

Lemma second_turn_checked_against_dir_witness :
  nextDir (handleKey "ArrowDown" (handleKey "ArrowUp" turning_snake)) = Down.
Proof.
  apply (second_turn_checked_against_dir turning_snake "ArrowUp" "ArrowDown");
    reflexivity.
Defined.

(** ** The impatient snake *)

Lemma slice_from_suffix {A} (pre suf : list A) :
  slice_from (Z.of_nat (length (pre ++ suf)) - Z.of_nat (length suf))
             (pre ++ suf)
  = suf.
Proof.
  unfold slice_from. rewrite length_app.
  destruct (_ <? 0)%Z eqn:Hneg; [apply Z.ltb_lt in Hneg; lia|].
  replace (Z.to_nat _) with (length pre) by lia.
  by rewrite drop_app_length.
Qed.

Lemma bored_after_same_moves (s : Snake) (pre : list Dir) (d : Dir) :
  pastMoves s = pre ++ replicate (sameMoves s) d → bored s = true.
Proof.
  intros Hp. unfold bored, checkPastMovesAllSame.
  apply andb_true_iff. split.
  - apply Nat.leb_le. rewrite Hp, length_app, length_replicate. lia.
  - pose proof (slice_from_suffix pre (replicate (sameMoves s) d)) as Hs.
    rewrite length_replicate, <- Hp in Hs. rewrite Hs.
    apply forallb_forall. intros d' Hin.
    apply list_elem_of_In, elem_of_replicate in Hin as [-> Hn].
    apply bool_decide_eq_true.
    destruct (sameMoves s); [done|reflexivity].
Qed.




(** ** Removing an eaten pellet *)

(** What [removeFood] keeps: the pellets that differ from the eaten one in
    [x] and in [y]. *)
Lemma removeFood_keeps (pellet f : Pellet) (g : Game) :
  f ∈ food (removeFood pellet g)
  ↔ f ∈ food g ∧ x (pt f) ≠ x (pt pellet) ∧ y (pt f) ≠ y (pt pellet).
Proof.
  unfold removeFood. cbn. rewrite !list_elem_of_In, filter_In.
  rewrite andb_true_iff, !negb_true_iff, !Z.eqb_neq. tauto.
Qed.

(** C1 fails on the code: [removeFood] keeps a pellet only if it differs
    from the eaten one in x and in y.  Here the snake eats the pellet at
    (5,5); the pellets at (5,7) and at (9,5), which are at other positions,
    are removed with it, and of four pellets one is left. *)
Theorem removeFood_drops_row_and_column :
  eats (food larder) (snake larder) []
  = Done (Some (new_Pellet 5 5), Snake_growSnakeBy (snake larder)) []
  ∧ food (removeFood (new_Pellet 5 5) larder) = [new_Pellet 8 8]
  ∧ new_Pellet 5 7 ∈ food larder
  ∧ pt (new_Pellet 5 7) ≠ pt (new_Pellet 5 5)
  ∧ new_Pellet 5 7 ∉ food (removeFood (new_Pellet 5 5) larder).
Proof.
  split; [reflexivity|]. split; [reflexivity|].
  split; [|split].
  - cbn. rewrite list_elem_of_In. cbn. tauto.
  - discriminate.
  - rewrite removeFood_keeps. cbn. intros (_ & H & _). by apply H.
Qed.

(** ** Refilling the food *)

Lemma floor_scaled_bounds (r : Q) (n : Z) :
  unit_interval r → (0 < n)%Z → (0 <= floor_scaled r n < n)%Z.
Proof.
  intros [H0 H1] Hn. unfold floor_scaled.
  assert (Hq : (0 < inject_Z n)%Q) by (rewrite Zlt_Qlt in Hn; exact Hn).
  split.
  - change 0%Z with (Qfloor 0). apply Qfloor_resp_le.
    apply Qmult_le_0_compat; [exact H0 | by apply Qlt_le_weak].
  - assert (Hlt : (r * inject_Z n < inject_Z n)%Q).
    { assert (H : (r * inject_Z n < 1 * inject_Z n)%Q)
        by (by apply Qmult_lt_compat_r).
      by rewrite Qmult_1_l in H. }
    pose proof (Qfloor_le (r * inject_Z n)) as Hfl.
    rewrite Zlt_Qlt. eapply Qle_lt_trans; eassumption.
Qed.

(** A pellet is not a point: [contains] finds no [x] and no [y] on it, and
    answers [false] whatever the body of the snake. *)
Lemma isPelletOnSnake_false (g : Game) (pellet : Pellet) :
  isPelletOnSnake g pellet = false.
Proof.
  unfold isPelletOnSnake, contains.
  induction (parts (snake g)) as [|me l IH]; [done|]. cbn. exact IH.
Qed.

Lemma refillFood_body_draws (g : Game) (rx ry : Q) (rs : list Q) :
  refillFood_body g (rx :: ry :: rs) =
    Done (set_food (food g ++ pellets_of [rx; ry]) g) rs.
Proof.
  unfold refillFood_body, Pellet_newRandom, Point_newRandom, randRange,
    Math_random.
  run_M. by rewrite isPelletOnSnake_false.
Qed.

Lemma pellets_of_app (rx ry : Q) (rs : list Q) :
  pellets_of (rx :: ry :: rs) = pellets_of [rx; ry] ++ pellets_of rs.
Proof. reflexivity. Qed.

Lemma while_loop_exit {St} (turns : nat) (cond : St → bool)
    (body : St → M St) (s : St) (rs : list Q) :
  cond s = false → while_loop turns cond body s rs = Done s rs.
Proof. intros H. destruct turns; cbn [while_loop]; by rewrite H. Qed.

Lemma while_loop_turn {St} (turns : nat) (cond : St → bool)
    (body : St → M St) (s : St) (rs : list Q) :
  cond s = true →
  while_loop (S turns) cond body s rs =
    match body s rs with
    | Done s' rs' => while_loop turns cond body s' rs'
    | Raise => Raise
    | Starve => Starve
    end.
Proof. intros H. cbn [while_loop]. by rewrite H. Qed.

Lemma refill_loop_returns (n : nat) :
  ∀ (g : Game) (rs : list Q) (turns : nat),
    (numFood g - length (food g) = n)%nat →
    (2 * n ≤ length rs)%nat → (n ≤ turns)%nat →
    while_loop turns (λ g, (length (food g) <? numFood g)%nat)
               refillFood_body g rs
    = Done (set_food (food g ++ pellets_of (take (2 * n) rs)) g)
           (drop (2 * n) rs).
Proof.
  induction n as [|n IH]; intros g rs turns Hn Hrs Hturns.
  - rewrite while_loop_exit by (apply Nat.ltb_ge; lia).
    cbn. rewrite app_nil_r, drop_0. by destruct g.
  - destruct turns as [|turns]; [lia|].
    destruct rs as [|rx [|ry rs]]; cbn in Hrs; try lia.
    rewrite while_loop_turn by (apply Nat.ltb_lt; lia).
    rewrite refillFood_body_draws.
    rewrite IH.
    + replace (2 * S n)%nat with (S (S (2 * n))) by lia.
      cbn [take drop food set_food].
      rewrite (pellets_of_app rx ry (take (2 * n) rs)), app_assoc.
      by destruct g.
    + cbn [food set_food numFood]. rewrite length_app. cbn. lia.
    + lia.
    + lia.
Qed.

(** [refillFood] returns as soon as the supply has two results for each
    pellet that is missing, and appends the pellets made of them: no draw is
    ever turned down. *)
Lemma refillFood_returns (g : Game) (rs : list Q) :
  (2 * (numFood g - length (food g)) ≤ length rs)%nat →
  refillFood g rs
  = Done (set_food
            (food g
             ++ pellets_of (take (2 * (numFood g - length (food g))) rs)) g)
         (drop (2 * (numFood g - length (food g))) rs).
Proof.
  intros Hrs. unfold refillFood.
  apply refill_loop_returns; [done | done | lia].
Qed.

Lemma length_pellets_of (rs : list Q) (n : nat) :
  length rs = (2 * n)%nat → length (pellets_of rs) = n.
Proof.
  revert rs. induction n as [|n IH]; intros rs Hl.
  - by destruct rs.
  - destruct rs as [|rx [|ry rs]]; cbn in Hl; try lia.
    cbn. f_equal. apply IH. lia.
Qed.

(** The part of C6 that holds, on the number of pellets: from a board that
    is not over-full, [refillFood] returns a board of [numFood] pellets. *)
Lemma refillFood_fills (g : Game) (rs : list Q) :
  (length (food g) ≤ numFood g)%nat →
  (2 * (numFood g - length (food g)) ≤ length rs)%nat →
  ∃ g' rest, refillFood g rs = Done g' rest
    ∧ length (food g') = numFood g ∧ numFood g' = numFood g
    ∧ snake g' = snake g.
Proof.
  intros Hle Hrs. rewrite refillFood_returns by done.
  eexists _, _. split; [reflexivity|]. cbn.
  rewrite length_app.
  rewrite (length_pellets_of _ (numFood g - length (food g))).
  - split; [lia|done].
  - rewrite length_take. lia.
Qed.

(** The part of C6 that holds, on the coordinates: a pellet made of results
    in [[0, 1)] has [x] in [[1, WIDTH)] and [y] in [[1, HEIGHT)]. *)
Lemma pellets_of_in_range (rs : list Q) :
  Forall unit_interval rs →
  Forall (λ f, (1 <= x (pt f) < WIDTH ∧ 1 <= y (pt f) < HEIGHT)%Z)
         (pellets_of rs).
Proof.
  remember (length rs) as n eqn:Hn. revert rs Hn.
  induction (lt_wf n) as [n _ IH]. intros [|rx [|ry rs]] Hn Hu.
  - constructor.
  - constructor.
  - inversion Hu as [|? ? Hx Hu']; subst.
    inversion Hu' as [|? ? Hy Hu'']; subst.
    cbn [pellets_of]. constructor.
    + pose proof (floor_scaled_bounds rx (WIDTH - 1) Hx eq_refl).
      pose proof (floor_scaled_bounds ry (HEIGHT - 1) Hy eq_refl).
      unfold new_Pellet. cbn [pt x y]. lia.
    + apply (IH (length rs)); [cbn; lia | done | done].
Qed.

(** C6 fails on the code: in the first tick of [game] the snake moves from
    (20,20) to (21,20); [Math.random()] then gives 0.7 and 0.67, which make
    the pellet (21,20).  [isPelletOnSnake] answers [false] for it,
    although the snake contains that point, and the pellet is placed on the
    head of the snake. *)
Theorem pellet_lands_on_snake :
  (head ∘ snake ∘ fst) <$> first_tick = Some (Some (mkPoint 21 20))
  ∧ (food ∘ fst) <$> first_tick
    = Some [new_Pellet 21 20; new_Pellet 15 15; new_Pellet 1 1]
  ∧ (λ gb, contains (snake gb.1) (OfPoint (mkPoint 21 20))) <$> first_tick
    = Some true
  ∧ (λ gb, isPelletOnSnake gb.1 (new_Pellet 21 20)) <$> first_tick
    = Some false.
Proof. repeat split; vm_compute; reflexivity. Qed.

(** C10: whether a drawn pellet is accepted does not depend on the food that
    is on the board; and there is a supply for which [refillFood] adds a
    pellet where the board already has one. *)
Theorem acceptance_ignores_food :
  (∀ (g : Game) (food1 food2 : list Pellet) (pellet : Pellet),
     isPelletOnSnake (set_food food1 g) pellet
     = isPelletOnSnake (set_food food2 g) pellet)
  ∧ (∃ (rs : list Q) (g' : Game) (old new : Pellet),
       refillFood stocked_game rs = Done g' []
       ∧ old ∈ food stocked_game
       ∧ food g' = food stocked_game ++ [new]
       ∧ pt new = pt old).
Proof.
  split; [reflexivity|].
  exists [1 # 10; 1 # 10]%Q,
    (set_food [new_Pellet 3 3; new_Pellet 3 3] stocked_game),
    (new_Pellet 3 3), (new_Pellet 3 3).
  split; [vm_compute; reflexivity|]. split; [|done].
  apply list_elem_of_In. cbn. tauto.
Qed.

(** ** The end of the game *)

Lemma with_nextDir_same (g : Game) : with_nextDir (nextDir (snake g)) g = g.
Proof. by destruct g as [[] ? ? ?]. Qed.

Lemma keyListener_with_nextDir (key : string) (d : Dir) (g : Game) :
  ∃ d', keyListener key (with_nextDir d g) = with_nextDir d' g.
Proof.
  unfold keyListener, with_nextDir. cbn [snake set_snake].
  rewrite handleKey_set_nextDir. eexists. by destruct g as [[] ? ? ?].
Qed.

Lemma isDead_cases (g : Game) (rs : list Q) :
  isDead g rs =
    match head (snake g) with
    | Some h => Done (isOutOfBound h || checkCrashIntoSelf (snake g)) rs
    | None => Raise
    end.
Proof.
  unfold isDead, checkCrashIntoWall. run_M. by destruct (head (snake g)).
Qed.

(** Whether the snake is dead depends neither on [nextDir] nor on the
    supply. *)
Lemma isDead_with_nextDir (g : Game) (d : Dir) (rs rs' : list Q) :
  isDead g rs = Done true rs → isDead (with_nextDir d g) rs' = Done true rs'.
Proof.
  rewrite !isDead_cases. unfold with_nextDir, head, checkCrashIntoSelf, head.
  cbn [snake set_snake parts set_nextDir].
  destruct (parts (snake g) !! 0%nat); [|done]. by intros [= ->].
Qed.

Lemma tick_dead (g : Game) (b : Browser) (rs : list Q) :
  isDead g rs = Done true rs →
  tick g b rs =
    Done (g, removeEventListener window "keydown" (Unbound KeyListener)
               (clearInterval (timerId g) b)) rs.
Proof. intros H. unfold tick. run_M. by rewrite H. Qed.

Section AfterCrash.

(** A game whose snake has crashed. *)
Variables (g : Game) (rs0 : list Q).
Hypothesis crashed : isDead g rs0 = Done true rs0.

Lemma call_dead (f : Fn) (key : option string) (d : Dir) (b : Browser)
    (rs : list Q) :
  ∃ d' b', call f key (with_nextDir d g, b) rs
           = Done (with_nextDir d' g, b') rs.
Proof.
  unfold call, invoke.
  destruct f as [m | id [|]]; [by eauto| |].
  - destruct key as [k|]; run_M; cbn [fst snd]; [|by eauto].
    destruct (keyListener_with_nextDir k d g) as [d' ->]. by eauto.
  - cbn [fst snd].
    rewrite (tick_dead _ _ rs) by (by eapply isDead_with_nextDir).
    by eauto.
Qed.

Lemma call_all_dead (fs : list Fn) (key : option string) :
  ∀ d b rs, ∃ d' b', call_all fs key (with_nextDir d g, b) rs
                     = Done (with_nextDir d' g, b') rs.
Proof.
  induction fs as [|f fs IH]; intros d b rs.
  - by eauto.
  - cbn [call_all]. run_M.
    destruct (call_dead f key d b rs) as (d1 & b1 & ->).
    apply IH.
Qed.

Lemma deliver_dead (e : Event) (d : Dir) (b : Browser) (rs : list Q) :
  ∃ d' b', deliver e (with_nextDir d g, b) rs
           = Done (with_nextDir d' g, b') rs.
Proof.
  destruct e as [id | key]; cbn [deliver snd].
  - destruct (intervals b !! id) as [f|]; [|by eauto].
    apply call_dead.
  - apply call_all_dead.
Qed.

Lemma run_dead (es : list Event) :
  ∀ d b rs, ∃ d' b', run es (with_nextDir d g, b) rs
                     = Done (with_nextDir d' g, b') rs.
Proof.
  induction es as [|e es IH]; intros d b rs.
  - by eauto.
  - cbn [run]. run_M.
    destruct (deliver_dead e d b rs) as (d1 & b1 & ->).
    apply IH.
Qed.

End AfterCrash.

(** C3: a tick that finds the snake crashed returns the game as it was (no
    move, nothing eaten, no result of [Math.random()] consumed and so no
    pellet added) and cancels the timer of the game.  From then on, whatever
    the browser delivers (timers that fire, keys), every callback returns and
    the game stays what it was at the crash, [nextDir] apart: no move is ever
    made again. *)
Theorem tick_after_crash (g : Game) (b : Browser) (rs : list Q) :
  isDead g rs = Done true rs →
  ∃ b', tick g b rs = Done (g, b') rs
    ∧ (∀ id, timerId g = Some id → intervals b' !! id = None)
    ∧ (∀ es rs', ∃ g2 b2,
         run es (g, b') rs' = Done (g2, b2) rs'
         ∧ g2 = with_nextDir (nextDir (snake g2)) g
         ∧ parts (snake g2) = parts (snake g)
         ∧ dir (snake g2) = dir (snake g)
         ∧ growBy (snake g2) = growBy (snake g)
         ∧ food g2 = food g).
Proof.
  intros Hdead. rewrite tick_dead by done. eexists. split; [reflexivity|].
  split.
  - intros id ->. cbn. apply lookup_delete_eq.
  - intros es rs'.
    destruct (run_dead g rs Hdead es (nextDir (snake g))
                (removeEventListener window "keydown" (Unbound KeyListener)
                   (clearInterval (timerId g) b)) rs') as (d' & b2 & Hrun).
    rewrite with_nextDir_same in Hrun. rewrite Hrun.
    eexists _, _. split; [reflexivity|]. cbn. done.
Qed.

Lemma tick_after_crash_witness :
  ∃ b', tick started_crashed.1 started_crashed.2 []
        = Done (started_crashed.1, b') []
        ∧ intervals started_crashed.2 !! 0%nat = Some (Bound 1 Tick)
        ∧ intervals b' !! 0%nat = None.
Proof.
  destruct (tick_after_crash started_crashed.1 started_crashed.2 [] eq_refl)
    as (b' & Ht & Hc & _).
  exists b'. split; [exact Ht|]. split; [reflexivity|].
  apply Hc. reflexivity.
Defined.

(** The listener that [start] registers. *)
Lemma start_listens (g : Game) (b : Browser) :
  mkListener document "keydown" (Bound (nextFn b) KeyListener)
    ∈ listeners (start g b).2.
Proof.
  unfold start, bind_this, setInterval, addEventListener. cbn.
  case_bool_decide as Hin; cbn; [done|].
  apply elem_of_app. right. by apply list_elem_of_singleton.
Qed.

(** [removeEventListener] leaves every other listener in place. *)
Lemma removeEventListener_other (l : Listener) (t : Target) (ty : string)
    (f : Fn) (b : Browser) :
  l ∈ listeners b → l ≠ mkListener t ty f →
  l ∈ listeners (removeEventListener t ty f b).
Proof.
  intros Hin Hne. unfold removeEventListener. cbn.
  apply list_elem_of_In, filter_In. split; [by apply list_elem_of_In|].
  by rewrite bool_decide_eq_false_2.
Qed.

(** Whatever the game and the browser, the terminal tick of a started game
    leaves the key listener of [start] registered: it was added to
    [document] as a bound function, and what [tick] removes is the method
    itself, from [window]. *)
Lemma crash_keeps_listener (g : Game) (b : Browser) (rs : list Q) :
  isDead g rs = Done true rs →
  ∃ b', tick (start g b).1 (start g b).2 rs = Done ((start g b).1, b') rs
    ∧ mkListener document "keydown" (Bound (nextFn b) KeyListener)
        ∈ listeners b'.
Proof.
  intros Hdead.
  assert (Hd : isDead (start g b).1 rs = Done true rs) by exact Hdead.
  rewrite tick_dead by exact Hd. eexists. split; [reflexivity|].
  apply removeEventListener_other; [|discriminate].
  unfold clearInterval. destruct (timerId (start g b).1); apply start_listens.
Qed.

(** C8 fails on the code: the game is started with its snake at the wall.
    The terminal tick cancels the timer, but the listener that [start] put on
    [document] is still there after it; the up arrow pressed after the crash
    reaches [handleKey] and turns [nextDir] from left to up. *)
Theorem keys_still_heard_after_crash :
  isDead crashed_game [] = Done true []
  ∧ listeners started_crashed.2
    = [mkListener document "keydown" (Bound 0 KeyListener)]
  ∧ snd <$> after_crash
    = Some (mkBrowser [mkListener document "keydown" (Bound 0 KeyListener)]
                      ∅ 2 1)
  ∧ (nextDir ∘ snake ∘ fst) <$> after_crash = Some Left
  ∧ (nextDir ∘ snake ∘ fst) <$> key_after_crash = Some Up.
Proof. repeat split; vm_compute; reflexivity. Qed.

(** * Further properties of the code *)

(** ** The body of the snake *)

(** X1: [contains] answers whether a point is one of the cells of the body,
    by coordinates; handed a pellet instead of a point, it answers
    [false]. *)
Theorem contains_point_iff (s : Snake) (p : Point) (f : Pellet) :
  (contains s (OfPoint p) = true ↔ p ∈ parts s)
  ∧ contains s (OfPellet f) = false.
Proof.
  unfold contains. split.
  - rewrite existsb_exists. split.
    + intros (me & Hin & Heq). apply andb_true_iff in Heq as [Hx Hy].
      cbn in Hx, Hy. apply Z.eqb_eq in Hx, Hy.
      apply list_elem_of_In. destruct me, p. cbn in *. by subst.
    + intros Hin. exists p. split; [by apply list_elem_of_In|].
      cbn. by rewrite !Z.eqb_refl.
  - induction (parts s) as [|me l IH]; [done|]. exact IH.
Qed.

(** X2: the snake has crashed into itself exactly when its head is also a
    cell of the rest of the body; a body of at most one cell never has. *)
Theorem checkCrashIntoSelf_iff (s : Snake) :
  (checkCrashIntoSelf s = true ↔ ∃ h t, parts s = h :: t ∧ h ∈ t)
  ∧ ((length (parts s) ≤ 1)%nat → checkCrashIntoSelf s = false).
Proof.
  unfold checkCrashIntoSelf, head. split.
  - destruct (parts s) as [|h t]; cbn.
    + split; [done|]. by intros (? & ? & ? & _).
    + rewrite drop_0, existsb_exists. split.
      * intros (me & Hin & Heq). apply andb_true_iff in Heq as [Hx Hy].
        apply Z.eqb_eq in Hx, Hy. exists h, t. split; [done|].
        apply list_elem_of_In. destruct me, h. cbn in *. by subst.
      * intros (h' & t' & [= <- <-] & Hin). exists h.
        split; [by apply list_elem_of_In|]. by rewrite !Z.eqb_refl.
  - destruct (parts s) as [|h [|q t]]; cbn; [done|done|lia].
Qed.

Lemma checkCrashIntoSelf_iff_witness :
  checkCrashIntoSelf (new_Snake "yellow" arrows (mkPoint 20 20) Right)
  = false.
Proof.
  destruct (checkCrashIntoSelf_iff
              (new_Snake "yellow" arrows (mkPoint 20 20) Right)) as [_ H].
  apply H. cbn. lia.
Defined.

(** X3: on a snake whose [parts] is empty the head is [undefined]:
    [checkCrashIntoWall], [move] and [tick] throw, while [checkCrashIntoSelf]
    answers [false].  [eats] throws as soon as there is a pellet to compare
    with the head; on an empty food list it returns nothing and leaves the
    snake as it is. *)
Theorem empty_body_throws (s : Snake) (rs : list Q) :
  parts s = [] →
  head s = None
  ∧ checkCrashIntoWall s rs = Raise
  ∧ checkCrashIntoSelf s = false
  ∧ move s rs = Raise
  ∧ eats [] s rs = Done (None, s) rs
  ∧ (∀ f fd, eats (f :: fd) s rs = Raise)
  ∧ (∀ g b, snake g = s → tick g b rs = Raise).
Proof.
  intros Hp.
  assert (Hh : head s = None) by (unfold head; by rewrite Hp).
  split; [done|].
  split; [unfold checkCrashIntoWall; run_M; by rewrite Hh|].
  split; [unfold checkCrashIntoSelf; by rewrite Hh|].
  split; [unfold move; run_M; by rewrite Hh|].
  split; [reflexivity|].
  split; [intros f fd; unfold eats; run_M; by rewrite Hh|].
  intros g b Hg. unfold tick, isDead, checkCrashIntoWall. run_M.
  by rewrite Hg, Hh.
Qed.

Lemma empty_body_throws_witness :
  move hollow_snake [] = Raise
  ∧ checkCrashIntoSelf hollow_snake = false
  ∧ eats [] hollow_snake [] = Done (None, hollow_snake) []
  ∧ eats [new_Pellet 5 5] hollow_snake [] = Raise.
Proof.
  destruct (empty_body_throws hollow_snake [] eq_refl)
    as (_ & _ & Hself & Hmove & Hnone & Hsome & _).
  split; [exact Hmove|]. split; [exact Hself|].
  split; [exact Hnone | apply Hsome].
Defined.

(** ** Eating and growing *)

Lemma at_point_true (p : Point) (f : Pellet) :
  at_point p f = true ↔ pt f = p.
Proof.
  unfold at_point. rewrite andb_true_iff, !Z.eqb_eq.
  destruct (pt f), p. cbn. split; [by intros [-> ->] | by intros [= -> ->]].
Qed.

Lemma find_none_iff (p : Point) (fd : list Pellet) :
  List.find (at_point p) fd = None ↔ ∀ f, f ∈ fd → pt f ≠ p.
Proof.
  induction fd as [|f fd IH]; cbn.
  - split; [|done]. intros _ f Hf. by apply elem_of_nil in Hf.
  - destruct (at_point p f) eqn:Hat.
    + split; [done|]. intros H. exfalso. apply (H f); [by left|].
      by apply at_point_true.
    + rewrite IH. split.
      * intros H f' Hf'.
        apply elem_of_cons in Hf' as [-> | Hf']; [|by apply H].
        intros Heq. apply at_point_true in Heq. congruence.
      * intros H f' Hf'. apply H. by right.
Qed.

Lemma find_first (p : Point) (pre post : list Pellet) (f : Pellet) :
  (∀ f', f' ∈ pre → pt f' ≠ p) → pt f = p →
  List.find (at_point p) (pre ++ f :: post) = Some f.
Proof.
  intros Hpre Hf. induction pre as [|a pre IH]; cbn.
  - by rewrite (proj2 (at_point_true p f) Hf).
  - destruct (at_point p a) eqn:Hat.
    + exfalso. apply (Hpre a); [by left|]. by apply at_point_true.
    + apply IH. intros f' Hf'. apply Hpre. by right.
Qed.

(** X4: for a snake that is not a [RandomGrowthSnake], [eats] returns the
    first pellet of the list that is at the head and raises [growBy] by 2;
    when no pellet is at the head it returns nothing and leaves the snake as
    it is.  No result of [Math.random()] is used. *)
Theorem eats_first_pellet_at_head (s : Snake) (h : Point) (t : list Point)
    (fd : list Pellet) (rs : list Q) :
  parts s = h :: t →
  cls s ≠ ClsRandomGrowthSnake →
  ((∀ f, f ∈ fd → pt f ≠ h) → eats fd s rs = Done (None, s) rs)
  ∧ (∀ pre f post, fd = pre ++ f :: post →
       (∀ f', f' ∈ pre → pt f' ≠ h) → pt f = h →
       eats fd s rs = Done (Some f, set_growBy (growBy s + 2) s) rs).
Proof.
  intros Hp Hc.
  assert (He : eats fd s rs =
    match List.find (at_point h) fd with
    | Some p => Done (Some p, set_growBy (growBy s + 2) s) rs
    | None => Done (None, s) rs
    end).
  { unfold eats, head. run_M. rewrite Hp. cbn [lookup list_lookup].
    change (λ f, (x (pt f) =? x h)%Z && (y (pt f) =? y h)%Z)
      with (at_point h).
    destruct fd as [|f0 fd0]; [done|].
    destruct (List.find (at_point h) (f0 :: fd0)); [|done].
    unfold growSnakeBy. by destruct (cls s). }
  rewrite He. split.
  - intros Hnone. by rewrite (proj2 (find_none_iff h fd) Hnone).
  - intros pre f post -> Hpre Hf. by rewrite find_first.
Qed.

Lemma eats_first_pellet_at_head_witness :
  eats (food larder) (snake larder) []
  = Done (Some (new_Pellet 5 5),
          set_growBy (growBy (snake larder) + 2) (snake larder)) [].
Proof.
  destruct (eats_first_pellet_at_head (snake larder) (mkPoint 5 5)
              [mkPoint 4 5; mkPoint 3 5] (food larder) [] eq_refl)
    as [_ H]; [discriminate|].
  apply (H [] (new_Pellet 5 5)
           [new_Pellet 5 7; new_Pellet 9 5; new_Pellet 8 8]).
  - reflexivity.
  - intros f' Hf'. by apply elem_of_nil in Hf'.
  - reflexivity.
Defined.

Lemma floor_scaled_ratio (k n : Z) :
  (0 < n)%Z → floor_scaled (k # Z.to_pos n) n = k.
Proof.
  intros Hn. unfold floor_scaled, Qfloor. cbn.
  rewrite Pos.mul_1_r, Z2Pos.id by done.
  by apply Z.div_mul, Z.neq_sym, Z.lt_neq.
Qed.

Lemma ratio_unit_interval (k n : Z) :
  (0 <= k < n)%Z → unit_interval (k # Z.to_pos n).
Proof.
  intros [H0 Hk]. unfold unit_interval, Qle, Qlt. cbn.
  rewrite Z2Pos.id by lia. lia.
Qed.

(** X5: a [RandomGrowthSnake] that eats grows by a whole number from 0 to
    [MAX_SNAKE_GROWTH - 1], each of which some result of [Math.random()]
    gives; it may thus eat without growing. *)
Theorem random_growth_range (s : Snake) (rs : list Q) :
  cls s = ClsRandomGrowthSnake →
  (∀ r, unit_interval r →
     ∃ k, growSnakeBy s (r :: rs) = Done (set_growBy (growBy s + k) s) rs
          ∧ (0 <= k < MAX_SNAKE_GROWTH)%Z)
  ∧ (∀ k, (0 <= k < MAX_SNAKE_GROWTH)%Z →
       ∃ r, unit_interval r
            ∧ growSnakeBy s (r :: rs)
              = Done (set_growBy (growBy s + k) s) rs).
Proof.
  intros Hc. unfold growSnakeBy. rewrite Hc.
  unfold RandomGrowthSnake_growSnakeBy, Math_random. run_M.
  split.
  - intros r Hr. eexists. split; [reflexivity|].
    by apply floor_scaled_bounds.
  - intros k Hk. exists (k # Z.to_pos MAX_SNAKE_GROWTH).
    split; [by apply ratio_unit_interval|].
    by rewrite floor_scaled_ratio.
Qed.

Lemma random_growth_range_witness :
  ∃ k, growSnakeBy rg_snake [1 # 2] = Done (set_growBy (0 + k) rg_snake) []
       ∧ (0 <= k < 6)%Z.
Proof.
  destruct (random_growth_range rg_snake [] eq_refl) as [H _].
  apply (H (1 # 2)). split; done.
Defined.

(** ** Moves in a row *)

(** [move] of the two classes that keep the [determineNextMove] of
    [Snake]. *)
Lemma move_base (s : Snake) (h : Point) (t : list Point) (rs : list Q) :
  parts s = h :: t → cls s ≠ ClsImpatientSnake →
  move s rs =
    Done (if (growBy s =? 0)%Z
          then set_parts (removelast (step_from h (nextDir s) :: h :: t))
                 (set_dir (nextDir s) s)
          else set_growBy (growBy s - 1)
                 (set_parts (step_from h (nextDir s) :: h :: t)
                    (set_dir (nextDir s) s))) rs.
Proof.
  intros Hp Hc.
  by rewrite (move_returns s (set_dir (nextDir s) s) h t rs rs Hp
                (determineNextMove_base s rs Hc) eq_refl).
Qed.

(** X6: what was eaten is paid off one cell per move: after [n] moves a
    snake that owed [growBy] cells is [min n growBy] cells longer and owes
    that many fewer; once the debt is 0 the length stays. *)
Theorem growth_is_paid_off (n : nat) (s : Snake) :
  parts s ≠ [] → cls s ≠ ClsImpatientSnake → (0 <= growBy s)%Z →
  ∃ s', moves n s = Some s'
    ∧ length (parts s') = (length (parts s) + n `min` Z.to_nat (growBy s))%nat
    ∧ growBy s' = (growBy s - Z.of_nat (n `min` Z.to_nat (growBy s)))%Z.
Proof.
  revert s. induction n as [|n IH]; intros s Hp Hc Hg.
  - exists s. cbn [moves]. split; [done|]. cbn. split; lia.
  - destruct (parts s) as [|h t] eqn:Hps; [done|].
    cbn [moves]. rewrite (move_base s h t [] Hps Hc).
    destruct (growBy s =? 0)%Z eqn:Hz.
    + apply Z.eqb_eq in Hz.
      destruct (IH (set_parts (removelast (step_from h (nextDir s) :: h :: t))
                      (set_dir (nextDir s) s))) as (s' & Hm & Hl & Hgr).
      * intros Hnil. apply (f_equal length) in Hnil.
        cbn [parts set_parts] in Hnil.
        rewrite length_removelast_cons in Hnil. done.
      * done.
      * cbn [growBy set_parts set_dir]. lia.
      * exists s'. split; [done|].
        cbn [parts set_parts growBy set_dir] in Hl, Hgr.
        rewrite length_removelast_cons in Hl.
        rewrite Hz in *. cbn [length] in *.
        change (Z.to_nat 0) with 0%nat in *.
        rewrite Nat.min_0_r in *. split; lia.
    + apply Z.eqb_neq in Hz.
      destruct (IH (set_growBy (growBy s - 1)
                 (set_parts (step_from h (nextDir s) :: h :: t)
                    (set_dir (nextDir s) s)))) as (s' & Hm & Hl & Hgr).
      * done.
      * done.
      * cbn [growBy set_growBy]. lia.
      * exists s'. split; [done|].
        cbn [parts set_parts growBy set_growBy set_dir length] in Hl, Hgr.
        cbn [length]. split; lia.
Qed.

Lemma growth_is_paid_off_witness :
  ∃ s', moves 5 fed_snake = Some s' ∧ length (parts s') = 3%nat
        ∧ growBy s' = 0%Z.
Proof.
  destruct (growth_is_paid_off 5 fed_snake) as (s' & Hm & Hl & Hg).
  - discriminate.
  - discriminate.
  - cbn. lia.
  - exists s'. split; [exact Hm|]. split; [exact Hl | exact Hg].
Defined.

Lemma step_from_adjacent (h : Point) (d : Dir) : adjacent (step_from h d) h.
Proof. unfold adjacent. destruct d; cbn; lia. Qed.

Lemma connected_removelast (l : list Point) :
  connected l → connected (removelast l).
Proof.
  induction l as [|p [|q [|r l]] IH]; try done.
  intros [Hpq Hc]. specialize (IH Hc).
  change (removelast (p :: q :: r :: l)) with (p :: q :: removelast (r :: l)).
  change (removelast (q :: r :: l)) with (q :: removelast (r :: l)) in IH.
  split; done.
Qed.

(** X7: [move] keeps the body in one piece: if every cell touches the next
    before the move, so it does after it, for every class and whether the
    snake grows or not. *)
Theorem move_keeps_body_connected (s : Snake) (h : Point) (t : list Point)
    (rs : list Q) :
  parts s = h :: t →
  (cls s = ClsImpatientSnake → rs ≠ []) →
  connected (parts s) →
  ∃ s' rs', move s rs = Done s' rs' ∧ connected (parts s').
Proof.
  intros Hp Hrs Hconn.
  destruct (determineNextMove_returns s rs Hrs)
    as (s1 & rs1 & Hdet & _ & Hparts & _ & _).
  rewrite (move_returns s s1 h t rs rs1 Hp Hdet Hparts).
  eexists _, _. split; [reflexivity|].
  assert (Hc : connected (step_from h (dir s1) :: h :: t)).
  { rewrite Hp in Hconn. split; [apply step_from_adjacent | exact Hconn]. }
  destruct (growBy s1 =? 0)%Z; cbn [parts set_parts set_growBy]; [|done].
  by apply connected_removelast.
Qed.

Lemma move_keeps_body_connected_witness :
  ∃ s' rs', move turning_snake [] = Done s' rs' ∧ connected (parts s').
Proof.
  apply (move_keeps_body_connected turning_snake (mkPoint 5 5)
           [mkPoint 4 5; mkPoint 3 5] []).
  - reflexivity.
  - discriminate.
  - cbn. unfold adjacent. cbn. lia.
Defined.

(** ** Keys between two moves *)

Lemma press_keys_turns (ks : list string) (s : Snake) :
  ∃ d, press_keys ks s = set_nextDir d s
       ∧ (d = nextDir s ∨ perpendicular (dir s) d = true).
Proof.
  unfold press_keys. revert s. induction ks as [|k ks IH]; intros s.
  - exists (nextDir s). split; [by destruct s | by left].
  - cbn [foldl]. destruct (IH (handleKey k s)) as (d & -> & Hd).
    rewrite handleKey_cases in *.
    destruct (keymap s !! k) as [dk|]; [|by eauto].
    destruct (perpendicular (dir s) dk) eqn:Hp; [|by eauto].
    exists d. split; [by destruct s|]. cbn in Hd.
    destruct Hd as [-> | Hd]; [by right | by right].
Qed.

(** X8: a [Snake] or a [RandomGrowthSnake] never turns back on itself:
    whatever keys are pressed between two moves, the heading after the next
    move is the old heading or perpendicular to it, never its reverse. *)
Theorem keys_never_reverse (s : Snake) (h : Point) (t : list Point)
    (ks : list string) (rs : list Q) :
  parts s = h :: t → cls s ≠ ClsImpatientSnake → nextDir s = dir s →
  ∃ s', move (press_keys ks s) rs = Done s' rs
    ∧ dir s' ≠ reverse (dir s)
    ∧ (dir s' = dir s ∨ perpendicular (dir s) (dir s') = true)
    ∧ nextDir s' = dir s'.
Proof.
  intros Hp Hc Hn.
  destruct (press_keys_turns ks s) as (d & -> & Hd).
  assert (Hd' : d = dir s ∨ perpendicular (dir s) d = true)
    by (destruct Hd as [-> | Hd]; [by left | by right]).
  rewrite (move_returns (set_nextDir d s) (set_dir d (set_nextDir d s)) h t
             rs rs Hp); [| by apply determineNextMove_base | done].
  eexists. split; [reflexivity|].
  destruct (growBy _ =? 0)%Z; cbn [dir nextDir set_parts set_growBy set_dir
                                    set_nextDir];
    (split; [|split; [exact Hd' | done]]);
    destruct Hd' as [-> | Hperp]; destruct (dir s); try done;
    destruct d; done.
Qed.

Lemma keys_never_reverse_witness :
  ∃ s', move (press_keys ["ArrowUp"; "ArrowLeft"; "ArrowDown"] turning_snake)
             [] = Done s' []
        ∧ dir s' ≠ Left.
Proof.
  destruct (keys_never_reverse turning_snake (mkPoint 5 5)
              [mkPoint 4 5; mkPoint 3 5]
              ["ArrowUp"; "ArrowLeft"; "ArrowDown"] [])
    as (s' & Hm & Hrev & _); [reflexivity | discriminate | reflexivity |].
  exists s'. split; [exact Hm | exact Hrev].
Defined.

(** X9: of two keys pressed before the next move the second wins if it is
    accepted (mapped, and perpendicular to the heading), whatever the first
    was; if it is not, the first stands.  Pressing a key twice is pressing
    it once. *)
Theorem last_accepted_key_wins (s : Snake) (k1 k2 : string) :
  (∀ d, keymap s !! k2 = Some d → checkIsNinetyDegree s d = true →
        handleKey k2 (handleKey k1 s) = set_nextDir d s)
  ∧ (keymap s !! k2 = None
     ∨ (∃ d, keymap s !! k2 = Some d ∧ checkIsNinetyDegree s d = false) →
     handleKey k2 (handleKey k1 s) = handleKey k1 s)
  ∧ handleKey k1 (handleKey k1 s) = handleKey k1 s.
Proof.
  assert (Hk : ∀ k d, keymap (set_nextDir d s) !! k = keymap s !! k) by done.
  assert (Hs : ∀ d d', set_nextDir d (set_nextDir d' s) = set_nextDir d s)
    by (intros; by destruct s).
  assert (H1 : ∃ d1, handleKey k1 s = set_nextDir d1 s)
    by (eexists; apply handleKey_set_nextDir).
  destruct H1 as [d1 H1].
  split; [|split].
  - intros d Hd Hp. rewrite H1, handleKey_cases, Hk, Hd.
    rewrite perpendicular_checkIsNinetyDegree in Hp. cbn [dir set_nextDir].
    by rewrite Hp, Hs.
  - intros Hrej. rewrite H1 at 1. rewrite handleKey_cases, Hk.
    cbn [dir set_nextDir]. destruct Hrej as [-> | (d & -> & Hp)]; [done|].
    rewrite perpendicular_checkIsNinetyDegree in Hp. by rewrite Hp.
  - pose proof H1 as H1'. rewrite handleKey_cases in H1'. rewrite H1.
    rewrite handleKey_cases, Hk. cbn [dir set_nextDir].
    destruct (keymap s !! k1) as [d|]; [|done].
    destruct (perpendicular (dir s) d); [|done].
    apply (f_equal nextDir) in H1'. cbn in H1'. by rewrite Hs, H1'.
Qed.

Lemma last_accepted_key_wins_witness :
  handleKey "ArrowDown" (handleKey "ArrowUp" turning_snake)
  = set_nextDir Down turning_snake
  ∧ handleKey "ArrowLeft" (handleKey "ArrowUp" turning_snake)
    = handleKey "ArrowUp" turning_snake.
Proof.
  destruct (last_accepted_key_wins turning_snake "ArrowUp" "ArrowDown")
    as [Hacc _].
  destruct (last_accepted_key_wins turning_snake "ArrowUp" "ArrowLeft")
    as (_ & Hrej & _).
  split.
  - apply Hacc; reflexivity.
  - apply Hrej. right. exists Left. split; reflexivity.
Defined.

(** ** More on the impatient snake *)

(** X10: an [ImpatientSnake] can turn back on itself.  When it is bored and
    a turn has been accepted since the last move ([nextDir] perpendicular to
    [dir]), the override draws among the two directions perpendicular to
    [nextDir], which are [dir] and its reverse; some result of
    [Math.random()] gives the reverse. *)
Theorem impatient_can_reverse (s : Snake) (rs : list Q) :
  cls s = ClsImpatientSnake → bored s = true →
  perpendicular (dir s) (nextDir s) = true →
  ∃ r s', unit_interval r
    ∧ determineNextMove s (r :: rs) = Done s' rs
    ∧ dir s' = reverse (dir s).
Proof.
  intros Hc Hb Hperp. unfold determineNextMove. rewrite Hc.
  unfold ImpatientSnake_determineNextMove. fold (bored s). rewrite Hb.
  unfold randomMove, Math_random. run_M.
  destruct (dir s) eqn:Hd, (nextDir s) eqn:Hn; try discriminate.
  all: first
    [ exists 0%Q; eexists; split; [by split|]; split; [reflexivity|];
      cbn; rewrite ?Hd; reflexivity
    | exists (1 # 2)%Q; eexists; split; [by split|]; split; [reflexivity|];
      cbn; rewrite ?Hd; reflexivity ].
Qed.

Lemma impatient_can_reverse_witness :
  ∃ r s', unit_interval r
    ∧ determineNextMove bored_climber [r] = Done s' []
    ∧ dir s' = Down.
Proof.
  apply (impatient_can_reverse bored_climber []); reflexivity.
Defined.

Lemma all_same_replicate (l : list Dir) :
  forallb (λ d, bool_decide (Some d = l !! 0%nat)) l = true →
  ∃ d, l = replicate (length l) d.
Proof.
  destruct l as [|a l]; [by exists Up|]. cbn [lookup list_lookup].
  intros Hall. exists a. cbn in Hall. apply andb_true_iff in Hall as [_ Hall].
  cbn. f_equal. induction l as [|b l IH]; [done|].
  cbn in Hall. apply andb_true_iff in Hall as [Hb Hall].
  apply bool_decide_eq_true in Hb as [= ->]. cbn. f_equal. by apply IH.
Qed.

(** X11: the test that triggers the random turn holds exactly when
    [pastMoves] ends with [sameMoves] entries that are one and the same
    direction. *)
Theorem bored_iff_same_moves (s : Snake) :
  bored s = true
  ↔ ∃ pre d, pastMoves s = pre ++ replicate (sameMoves s) d.
Proof.
  split.
  - unfold bored, checkPastMovesAllSame, slice_from. intros Hb.
    apply andb_true_iff in Hb as [Hlen Hall]. apply Nat.leb_le in Hlen.
    destruct (_ <? 0)%Z eqn:Hneg; [apply Z.ltb_lt in Hneg; lia|].
    replace (Z.to_nat _) with (length (pastMoves s) - sameMoves s)%nat
      in Hall by lia.
    apply all_same_replicate in Hall as [d Hd].
    rewrite length_drop in Hd.
    replace (length (pastMoves s) - (length (pastMoves s) - sameMoves s))%nat
      with (sameMoves s) in Hd by lia.
    exists (take (length (pastMoves s) - sameMoves s) (pastMoves s)), d.
    by rewrite <- Hd, take_drop.
  - intros (pre & d & Hp). by eapply bored_after_same_moves.
Qed.

Lemma bored_needs_history (s : Snake) :
  (length (pastMoves s) < sameMoves s)%nat → bored s = false.
Proof.
  intros Hl. unfold bored. apply andb_false_iff. left.
  apply Nat.leb_gt. lia.
Qed.

Lemma determineNextMove_short_history (s : Snake) (rs : list Q) :
  cls s = ClsImpatientSnake →
  (length (pastMoves s) < sameMoves s)%nat →
  determineNextMove s rs =
    Done (set_pastMoves (pastMoves s ++ [nextDir s])
            (Snake_determineNextMove s)) rs.
Proof.
  intros Hc Hl. unfold determineNextMove. rewrite Hc.
  by rewrite ImpatientSnake_determineNextMove_calm
    by (by apply bored_needs_history).
Qed.

(** While its history is shorter than [sameMoves], an impatient snake that
    is left alone moves on without drawing. *)
Lemma moves_short_history (n : nat) :
  ∀ s, cls s = ClsImpatientSnake → parts s ≠ [] →
    (length (pastMoves s) + n ≤ sameMoves s)%nat →
    ∃ s', moves n s = Some s'
      ∧ pastMoves s' = pastMoves s ++ replicate n (nextDir s)
      ∧ nextDir s' = nextDir s
      ∧ ((0 < n)%nat → dir s' = nextDir s)
      ∧ cls s' = ClsImpatientSnake
      ∧ sameMoves s' = sameMoves s
      ∧ parts s' ≠ [].
Proof.
  induction n as [|n IH]; intros s Hc Hp Hl.
  - exists s. cbn [moves replicate]. rewrite app_nil_r.
    repeat split; try done. lia.
  - destruct (parts s) as [|h t] eqn:Hps; [done|].
    assert (Hdet := determineNextMove_short_history s [] Hc ltac:(lia)).
    cbn [moves].
    rewrite (move_returns s _ h t [] [] Hps Hdet eq_refl).
    set (s1 := if (_ =? 0)%Z then _ else _).
    assert (H1 : cls s1 = ClsImpatientSnake ∧ parts s1 ≠ []
                 ∧ pastMoves s1 = pastMoves s ++ [nextDir s]
                 ∧ nextDir s1 = nextDir s ∧ sameMoves s1 = sameMoves s).
    { unfold s1. destruct (_ =? 0)%Z; cbn; repeat split; try done.
      all: by destruct t. }
    destruct H1 as (Hc1 & Hp1 & Hm1 & Hn1 & Hs1).
    destruct (IH s1 Hc1 Hp1)
      as (s' & Hmv & Hpm & Hnd & Hdir & Hcs & Hsm & Hps');
      [rewrite Hm1, length_app, Hs1; cbn; lia|].
    exists s'. split; [done|]. rewrite Hpm, Hm1, Hn1, <- app_assoc.
    split; [done|]. split; [congruence|]. split.
    + intros _. destruct n as [|n].
      * cbn [moves] in Hmv. injection Hmv as <-. unfold s1.
        by destruct (_ =? 0)%Z.
      * rewrite Hdir by lia. done.
    + split; [done|]. split; [congruence|done].
Qed.

(** X12: a new [ImpatientSnake] that is left alone goes seven moves straight
    on and turns at the eighth: the constructor has put the starting
    direction in [pastMoves], so after seven moves the history holds eight
    equal entries.  The eighth move needs a result of [Math.random()] and
    resolves to a perpendicular heading. *)
Theorem new_impatient_snake_turns_at_eighth_move (c : string)
    (km : gmap string Dir) (start : Point) (d : Dir) :
  ∃ s7, moves 7 (new_ImpatientSnake c km start d) = Some s7
    ∧ pastMoves s7 = replicate 8 d
    ∧ dir s7 = d ∧ nextDir s7 = d
    ∧ move s7 [] = Starve
    ∧ (∀ r rs, ∃ s8, move s7 (r :: rs) = Done s8 rs
                     ∧ perpendicular d (dir s8) = true
                     ∧ pastMoves s8 = replicate 8 d ++ [dir s8]).
Proof.
  destruct (moves_short_history 7 (new_ImpatientSnake c km start d))
    as (s7 & Hmv & Hpm & Hnd & Hdir & Hcs & Hsm & Hps).
  { reflexivity. }
  { discriminate. }
  { cbn [new_ImpatientSnake pastMoves sameMoves length]. lia. }
  cbn [new_ImpatientSnake pastMoves nextDir sameMoves] in Hpm, Hnd, Hdir, Hsm.
  exists s7. split; [exact Hmv|]. clear Hmv. split; [exact Hpm|].
  split; [apply Hdir; lia|]. split; [exact Hnd|].
  assert (Hb : bored s7 = true).
  { apply (bored_after_same_moves s7 [] d). by rewrite Hpm, Hsm. }
  destruct (parts s7) as [|h t] eqn:Hp7; [exfalso; apply Hps; reflexivity|].
  split.
  - unfold move, head. rewrite Hp7. cbn [lookup list_lookup].
    unfold mbind, M_bind, defined, determineNextMove. rewrite Hcs.
    unfold ImpatientSnake_determineNextMove. fold (bored s7). rewrite Hb.
    reflexivity.
  - intros r rs.
    destruct (ImpatientSnake_determineNextMove_bored s7 r rs Hb)
      as (d' & Hperp & Hdet).
    assert (Hdet' : determineNextMove s7 (r :: rs)
                    = Done (set_pastMoves (pastMoves s7 ++ [d'])
                              (set_dir d' (set_nextDir d' s7))) rs)
      by (unfold determineNextMove; rewrite Hcs; exact Hdet).
    rewrite (move_returns s7 _ h t (r :: rs) rs Hp7 Hdet' eq_refl).
    eexists. split; [reflexivity|]. rewrite Hnd in Hperp.
    destruct (_ =? 0)%Z; cbn [dir pastMoves set_parts set_growBy
                               set_pastMoves set_dir];
      by rewrite Hpm.
Qed.

(** ** Pellets *)

(** X13: a pellet made by [Pellet.newRandom] is never out of bound, and
    every point that is not out of bound is the place of a pellet that
    [Pellet.newRandom] can make. *)
Theorem random_pellet_inside_board :
  (∀ rx ry rs, unit_interval rx → unit_interval ry →
     ∃ f, Pellet_newRandom (rx :: ry :: rs) = Done f rs
          ∧ isOutOfBound (pt f) = false)
  ∧ (∀ p rs, isOutOfBound p = false →
       ∃ rx ry, unit_interval rx ∧ unit_interval ry
         ∧ Pellet_newRandom (rx :: ry :: rs) = Done (mkPellet p) rs).
Proof.
  unfold Pellet_newRandom, Point_newRandom, randRange, Math_random,
    new_Pellet.
  run_M. split.
  - intros rx ry rs Hx Hy. eexists. split; [reflexivity|]. cbn [pt x y].
    pose proof (floor_scaled_bounds rx (WIDTH - 1) Hx eq_refl).
    pose proof (floor_scaled_bounds ry (HEIGHT - 1) Hy eq_refl).
    unfold isOutOfBound. cbn [x y]. rewrite !orb_false_iff, !Z.leb_gt.
    unfold WIDTH, HEIGHT in *. lia.
  - intros p rs Hin. unfold isOutOfBound in Hin.
    rewrite !orb_false_iff, !Z.leb_gt in Hin.
    exists ((x p - 1) # Z.to_pos (WIDTH - 1)),
           ((y p - 1) # Z.to_pos (HEIGHT - 1)).
    split; [apply ratio_unit_interval; unfold WIDTH in *; lia|].
    split; [apply ratio_unit_interval; unfold HEIGHT in *; lia|].
    rewrite !floor_scaled_ratio by done. destruct p as [px py]. cbn [x y].
    do 3 f_equal; lia.
Qed.

Lemma random_pellet_inside_board_witness :
  ∃ f, Pellet_newRandom [1 # 2; 1 # 2] = Done f []
       ∧ isOutOfBound (pt f) = false.
Proof.
  destruct random_pellet_inside_board as [H _].
  apply H; split; done.
Defined.

(** X14: [removeFood] leaves no pellet at the position of the pellet it is
    given, adds none, and shortens the list when that pellet was on the
    board; removing twice is removing once; the snake and [numFood] are not
    touched. *)
Theorem removeFood_clears_position (pellet : Pellet) (g : Game) :
  (∀ f, f ∈ food (removeFood pellet g) → f ∈ food g ∧ pt f ≠ pt pellet)
  ∧ (length (food (removeFood pellet g)) ≤ length (food g))%nat
  ∧ (pellet ∈ food g →
     (length (food (removeFood pellet g)) < length (food g))%nat)
  ∧ removeFood pellet (removeFood pellet g) = removeFood pellet g
  ∧ snake (removeFood pellet g) = snake g
  ∧ numFood (removeFood pellet g) = numFood g.
Proof.
  split; [|split; [|split; [|split; [|done]]]].
  - intros f Hf. apply removeFood_keeps in Hf as (Hin & Hx & _).
    split; [done|]. intros Heq. by rewrite Heq in Hx.
  - unfold removeFood. cbn. apply filter_length_le.
  - unfold removeFood. cbn [food set_food]. intros Hin.
    induction (food g) as [|f fd IH]; [by apply elem_of_nil in Hin|].
    cbn [List.filter].
    apply elem_of_cons in Hin as [<- | Hin].
    + rewrite !Z.eqb_refl. cbn [negb andb length].
      pose proof (filter_length_le
        (λ f, negb (x (pt f) =? x (pt pellet))%Z
              && negb (y (pt f) =? y (pt pellet))%Z) fd). lia.
    + specialize (IH Hin). destruct (_ && _); cbn [length]; lia.
  - unfold removeFood, set_food. cbn [food snake numFood timerId]. f_equal.
    induction (food g) as [|f fd IH]; [done|]. cbn [List.filter].
    destruct (negb _ && negb _) eqn:Hk; [|done].
    cbn [List.filter]. rewrite Hk. by f_equal.
Qed.

Lemma removeFood_clears_position_witness :
  (length (food (removeFood (new_Pellet 5 5) larder)) < 4)%nat.
Proof.
  destruct (removeFood_clears_position (new_Pellet 5 5) larder)
    as (_ & _ & H & _).
  apply H. apply list_elem_of_In. cbn. tauto.
Defined.

(** X15: [refillFood] leaves a full or over-full board as it is and draws
    nothing.  On a board that lacks pellets it keeps the pellets there are,
    in their order, and appends exactly the missing number, each of them not
    out of bound, using two results of [Math.random()] per pellet; with fewer
    results at hand the loop has not finished. *)
Theorem refillFood_appends (g : Game) (rs : list Q) :
  ((numFood g ≤ length (food g))%nat → refillFood g rs = Done g rs)
  ∧ ((2 * (numFood g - length (food g)) ≤ length rs)%nat →
     Forall unit_interval rs →
     ∃ added used rest,
       refillFood g rs = Done (set_food (food g ++ added) g) rest
       ∧ rs = used ++ rest
       ∧ length added = (numFood g - length (food g))%nat
       ∧ length used = (2 * length added)%nat
       ∧ Forall (λ f, isOutOfBound (pt f) = false) added)
  ∧ ((length rs < 2 * (numFood g - length (food g)))%nat →
     refillFood g rs = Starve).
Proof.
  split; [|split].
  - intros Hfull. unfold refillFood.
    apply while_loop_exit. apply Nat.ltb_ge. lia.
  - intros Hrs Hu. rewrite refillFood_returns by done.
    set (n := (numFood g - length (food g))%nat) in *.
    exists (pellets_of (take (2 * n) rs)), (take (2 * n) rs),
      (drop (2 * n) rs).
    assert (Hlen : length (pellets_of (take (2 * n) rs)) = n)
      by (apply length_pellets_of; rewrite length_take; lia).
    split; [done|]. split; [by rewrite take_drop|]. split; [done|].
    split; [rewrite Hlen, length_take; lia|].
    eapply Forall_impl; [apply pellets_of_in_range, Forall_take, Hu|].
    intros f (Hx & Hy). unfold isOutOfBound.
    rewrite !orb_false_iff, !Z.leb_gt. lia.
  - unfold refillFood. generalize (length rs) at 2. intros turns.
    revert g rs. induction turns as [|turns IH]; intros g rs Hlt.
    + cbn [while_loop].
      assert (Hc : (length (food g) <? numFood g)%nat = true)
        by (apply Nat.ltb_lt; lia).
      by rewrite Hc.
    + rewrite while_loop_turn by (apply Nat.ltb_lt; lia).
      destruct rs as [|rx [|ry rs]]; [done|done|].
      rewrite refillFood_body_draws. apply IH.
      cbn [food set_food numFood length] in *.
      rewrite length_app. cbn [pellets_of length]. lia.
Qed.

Lemma refillFood_appends_witness :
  ∃ added used rest,
    refillFood stocked_game [1 # 10; 1 # 10; 1 # 2]
    = Done (set_food (food stocked_game ++ added) stocked_game) rest
    ∧ [1 # 10; 1 # 10; 1 # 2] = used ++ rest
    ∧ length added = 1%nat
    ∧ length used = (2 * length added)%nat
    ∧ Forall (λ f, isOutOfBound (pt f) = false) added.
Proof.
  destruct (refillFood_appends stocked_game [1 # 10; 1 # 10; 1 # 2])
    as (_ & H & _).
  apply H.
  - cbn. lia.
  - repeat constructor; done.
Defined.

(** ** A tick on a live snake *)

(** [determineNextMove], [move] and [eats] each draw at most one result. *)
Lemma determineNextMove_draws (s : Snake) (rs : list Q) :
  (cls s = ClsImpatientSnake → rs ≠ []) →
  ∃ s1 rs1, determineNextMove s rs = Done s1 rs1
    ∧ parts s1 = parts s ∧ cls s1 = cls s
    ∧ (length rs ≤ S (length rs1))%nat
    ∧ (cls s ≠ ClsImpatientSnake → dir s1 = nextDir s).
Proof.
  intros Hrs. destruct (decide (cls s = ClsImpatientSnake)) as [Hc|Hc].
  - unfold determineNextMove. rewrite Hc. destruct (bored s) eqn:Hb.
    + destruct rs as [|r rs]; [by destruct Hrs|].
      destruct (ImpatientSnake_determineNextMove_bored s r rs Hb)
        as (d & _ & ->).
      eexists _, _. split; [reflexivity|]. cbn.
      split; [done|]. split; [done|]. split; [lia|done].
    + rewrite ImpatientSnake_determineNextMove_calm by done.
      eexists _, _. split; [reflexivity|]. cbn.
      split; [done|]. split; [done|]. split; [lia|done].
  - rewrite determineNextMove_base by done.
    eexists _, _. split; [reflexivity|]. cbn.
    split; [done|]. split; [done|]. split; [lia|done].
Qed.

Lemma move_draws (s : Snake) (h : Point) (t : list Point) (rs : list Q) :
  parts s = h :: t →
  (cls s = ClsImpatientSnake → rs ≠ []) →
  ∃ s' rs', move s rs = Done s' rs'
    ∧ head s' = Some (step_from h (dir s'))
    ∧ cls s' = cls s
    ∧ (length rs ≤ S (length rs'))%nat
    ∧ (cls s ≠ ClsImpatientSnake → dir s' = nextDir s).
Proof.
  intros Hp Hrs.
  destruct (determineNextMove_draws s rs Hrs)
    as (s1 & rs1 & Hdet & Hparts & Hcls & Hlen & Hbase).
  rewrite (move_returns s s1 h t rs rs1 Hp Hdet Hparts).
  eexists _, _. split; [reflexivity|].
  destruct (growBy s1 =? 0)%Z;
    cbn [head parts dir cls set_parts set_growBy]; [|done].
  split; [by destruct t|done].
Qed.

Lemma eats_draws (fd : list Pellet) (s : Snake) (h : Point) (rs : list Q) :
  head s = Some h →
  (cls s = ClsRandomGrowthSnake → rs ≠ []) →
  ∃ o s' rs', eats fd s rs = Done (o, s') rs'
    ∧ parts s' = parts s ∧ dir s' = dir s
    ∧ (length rs ≤ S (length rs'))%nat.
Proof.
  intros Hh Hrs.
  assert (He : eats fd s rs =
    match List.find (λ f, (x (pt f) =? x h)%Z && (y (pt f) =? y h)%Z) fd with
    | Some p => match growSnakeBy s rs with
                | Done s' rs' => Done (Some p, s') rs'
                | Raise => Raise
                | Starve => Starve
                end
    | None => Done (None, s) rs
    end).
  { unfold eats. run_M. rewrite Hh. destruct fd as [|f0 fd0]; [done|].
    by destruct (List.find _ (f0 :: fd0)). }
  rewrite He. destruct (List.find _ fd) as [p|].
  - unfold growSnakeBy.
    destruct (decide (cls s = ClsRandomGrowthSnake)) as [Hc|Hc].
    + rewrite Hc. destruct rs as [|r rs]; [by destruct Hrs|].
      unfold RandomGrowthSnake_growSnakeBy, Math_random. run_M.
      eexists _, _, _. split; [reflexivity|]. cbn.
      split; [done|]. split; [done|lia].
    + destruct (cls s); [|by destruct Hc|];
        (eexists _, _, _; split; [reflexivity|]; cbn;
         split; [done|]; split; [done|lia]).
  - eexists _, _, _. split; [reflexivity|]. split; [done|]. split; [done|lia].
Qed.

Lemma length_removeFood (pellet : Pellet) (g : Game) :
  (length (food (removeFood pellet g)) ≤ length (food g))%nat.
Proof. unfold removeFood. cbn. apply filter_length_le. Qed.

(** A tick on a live snake, when the supply is long enough for the move, the
    growth and the refill. *)
Lemma tick_live (g : Game) (b : Browser) (rs : list Q) :
  isDead g rs = Done false rs →
  (length (food g) ≤ numFood g)%nat →
  (2 * numFood g + 2 ≤ length rs)%nat →
  ∃ g' rs' h,
    tick g b rs = Done (g', b) rs'
    ∧ head (snake g) = Some h
    ∧ head (snake g') = Some (step_from h (dir (snake g')))
    ∧ length (food g') = numFood g
    ∧ numFood g' = numFood g
    ∧ timerId g' = timerId g
    ∧ (cls (snake g) ≠ ClsImpatientSnake →
       dir (snake g') = nextDir (snake g)).
Proof.
  intros Hdead Hfood Hrs.
  assert (Hhead : ∃ h t, parts (snake g) = h :: t).
  { rewrite isDead_cases in Hdead. unfold head in Hdead.
    destruct (parts (snake g)) as [|h t]; [done|]. by eauto. }
  destruct Hhead as (h & t & Hp).
  destruct (move_draws (snake g) h t rs Hp)
    as (s1 & rs1 & Hmove & Hh1 & Hc1 & Hl1 & Hd1).
  { intros _ ->. cbn in Hrs. lia. }
  destruct (eats_draws (food g) s1 _ rs1 Hh1)
    as (o & s2 & rs2 & Heats & Hp2 & Hd2 & Hl2).
  { intros _ ->. cbn in Hl1. lia. }
  set (g1 := set_snake s2 g).
  set (g2 := match o with Some pellet => removeFood pellet g1 | None => g1 end).
  assert (Hg2 : (length (food g2) ≤ length (food g))%nat
                ∧ numFood g2 = numFood g ∧ snake g2 = s2
                ∧ timerId g2 = timerId g).
  { unfold g2. destruct o as [p|]; [|done].
    split; [apply (length_removeFood p g1)|done]. }
  destruct Hg2 as (Hlg2 & Hn2 & Hs2 & Ht2).
  assert (H22 : (2 * (numFood g2 - length (food g2)) ≤ length rs2)%nat)
    by lia.
  pose proof (refillFood_returns g2 rs2 H22) as Hfill.
  eexists _, _, h.
  split.
  - unfold tick. run_M. rewrite Hdead, Hmove, Heats.
    cbn [fst snd]. fold g1. fold g2. by rewrite Hfill.
  - cbn [snake food numFood timerId set_food].
    split; [unfold head; by rewrite Hp|].
    split; [unfold head in *; by rewrite Hs2, Hp2, Hd2|].
    split.
    + rewrite length_app.
      rewrite (length_pellets_of _ (numFood g2 - length (food g2)));
        [lia|]. rewrite length_take. lia.
    + split; [done|]. split; [done|].
      intros Hc. rewrite Hs2, Hd2. by apply Hd1.
Qed.

(** X16: a tick on a live snake, from a board that is not over-full: the
    head advances one cell in the resolved heading, the board ends with
    exactly [numFood] pellets whether or not one was eaten, and neither the
    browser nor the timer id is touched.  Two results of [Math.random()] per
    pellet of [numFood] and two more are always enough for it to return. *)
Theorem live_tick_refills (g : Game) (b : Browser) (rs : list Q) :
  isDead g rs = Done false rs →
  (length (food g) ≤ numFood g)%nat →
  (2 * numFood g + 2 ≤ length rs)%nat →
  ∃ g' rs' h,
    tick g b rs = Done (g', b) rs'
    ∧ head (snake g) = Some h
    ∧ head (snake g') = Some (step_from h (dir (snake g')))
    ∧ length (food g') = numFood g
    ∧ numFood g' = numFood g
    ∧ timerId g' = timerId g.
Proof.
  intros Hdead Hfood Hrs.
  destruct (tick_live g b rs Hdead Hfood Hrs)
    as (g' & rs' & h & Ht & Hh & Hh' & Hl & Hn & Hti & _).
  exists g', rs', h. done.
Qed.

Lemma live_tick_refills_witness :
  ∃ g' rs' h,
    tick game fresh_browser eight_draws = Done (g', fresh_browser) rs'
    ∧ head (snake game) = Some h
    ∧ head (snake g') = Some (step_from h (dir (snake g')))
    ∧ length (food g') = 3%nat
    ∧ numFood g' = 3%nat
    ∧ timerId g' = None.
Proof.
  apply (live_tick_refills game fresh_browser eight_draws).
  - reflexivity.
  - cbn. lia.
  - cbn. lia.
Defined.

(** X17: the crash is seen one tick late.  A live [Snake] or
    [RandomGrowthSnake] whose next cell is out of bound still makes the move:
    the tick puts the head on that cell, refills the food and returns as
    usual; it is the tick after it that finds the snake dead and changes
    nothing. *)
Theorem crash_is_seen_one_tick_late (g : Game) (b : Browser) (rs : list Q)
    (h : Point) :
  isDead g rs = Done false rs →
  head (snake g) = Some h →
  cls (snake g) ≠ ClsImpatientSnake →
  isOutOfBound (step_from h (nextDir (snake g))) = true →
  (length (food g) ≤ numFood g)%nat →
  (2 * numFood g + 2 ≤ length rs)%nat →
  ∃ g' rs' b',
    tick g b rs = Done (g', b) rs'
    ∧ head (snake g') = Some (step_from h (nextDir (snake g)))
    ∧ length (food g') = numFood g
    ∧ isDead g' rs' = Done true rs'
    ∧ tick g' b rs' = Done (g', b') rs'.
Proof.
  intros Hdead Hh Hc Hout Hfood Hrs.
  destruct (tick_live g b rs Hdead Hfood Hrs)
    as (g' & rs' & h' & Ht & Hh0 & Hh' & Hl & _ & _ & Hd).
  rewrite Hh in Hh0. injection Hh0 as <-. rewrite (Hd Hc) in Hh'.
  assert (Hdead' : isDead g' rs' = Done true rs')
    by (by rewrite isDead_cases, Hh', Hout).
  exists g', rs'. eexists. split; [exact Ht|]. split; [exact Hh'|].
  split; [exact Hl|]. split; [exact Hdead'|]. by apply tick_dead.
Qed.

Lemma crash_is_seen_one_tick_late_witness :
  ∃ g' rs' b',
    tick wall_runner fresh_browser eight_draws = Done (g', fresh_browser) rs'
    ∧ head (snake g') = Some (mkPoint 0 15)
    ∧ length (food g') = 3%nat
    ∧ isDead g' rs' = Done true rs'
    ∧ tick g' fresh_browser rs' = Done (g', b') rs'.
Proof.
  apply (crash_is_seen_one_tick_late wall_runner fresh_browser eight_draws
           (mkPoint 1 15)).
  - reflexivity.
  - reflexivity.
  - discriminate.
  - reflexivity.
  - cbn. lia.
  - cbn. lia.
Defined.

(** ** Starting the game *)

(** X18: [start] changes nothing of the game but [timerId], which becomes
    the id of a new timer; that timer calls [tick] on the game, the other
    timers are untouched, and in a browser without other listeners a key
    press is handed to [keyListener], once. *)
Theorem start_wires_callbacks (g : Game) (b : Browser) :
  snake (start g b).1 = snake g
  ∧ food (start g b).1 = food g
  ∧ numFood (start g b).1 = numFood g
  ∧ timerId (start g b).1 = Some (nextTimer b)
  ∧ intervals (start g b).2 !! nextTimer b = Some (Bound (S (nextFn b)) Tick)
  ∧ (∀ id, id ≠ nextTimer b →
       intervals (start g b).2 !! id = intervals b !! id)
  ∧ (∀ rs r rs', tick (start g b).1 (start g b).2 rs = Done r rs' →
       deliver (TimerFires (nextTimer b)) (start g b) rs = Done r rs')
  ∧ (listeners b = [] →
     ∀ key rs, deliver (KeyDown key) (start g b) rs
               = Done (keyListener key (start g b).1, (start g b).2) rs).
Proof.
  assert (Hi : intervals (start g b).2
               = <[nextTimer b := Bound (S (nextFn b)) Tick]> (intervals b)).
  { unfold start, bind_this, setInterval, addEventListener. cbn.
    by case_bool_decide. }
  assert (Hg : (start g b).1 = set_timerId (Some (nextTimer b)) g).
  { unfold start, bind_this, setInterval, addEventListener. cbn.
    by case_bool_decide. }
  assert (Hls : listeners b = [] →
                listeners (start g b).2
                = [mkListener document "keydown"
                     (Bound (nextFn b) KeyListener)]).
  { intros Hl. unfold start, bind_this, setInterval, addEventListener. cbn.
    rewrite Hl. case_bool_decide as Hin; [by apply elem_of_nil in Hin|].
    reflexivity. }
  destruct (start g b) as [g1 b1]. cbn [fst snd] in *. subst g1.
  cbn [snake food numFood timerId set_timerId].
  split; [done|]. split; [done|]. split; [done|]. split; [done|].
  split; [rewrite Hi; apply lookup_insert_eq|].
  split; [intros id Hid; rewrite Hi; by apply lookup_insert_ne|].
  split.
  - intros rs r rs' Ht. cbn [deliver snd]. rewrite Hi, lookup_insert_eq.
    unfold call, invoke. cbn [fst snd]. by rewrite Ht.
  - intros Hl key rs. cbn [deliver snd].
    unfold listeners_on. rewrite (Hls Hl). reflexivity.
Qed.

Lemma start_wires_callbacks_witness :
  deliver (KeyDown "ArrowUp") (start game fresh_browser) []
  = Done (keyListener "ArrowUp" (start game fresh_browser).1,
          (start game fresh_browser).2) [].
Proof.
  destruct (start_wires_callbacks game fresh_browser)
    as (_ & _ & _ & _ & _ & _ & _ & H).
  apply H. reflexivity.
Defined.

(** X19: [start] called a second time overwrites [timerId] with the id of
    the second timer.  The tick that finds the snake dead cancels that one
    only: the first timer stays active and keeps calling [tick]. *)
Theorem second_start_orphans_first_timer (g : Game) (b : Browser)
    (rs : list Q) :
  isDead g rs = Done true rs →
  ∃ b', tick (start (start g b).1 (start g b).2).1
             (start (start g b).1 (start g b).2).2 rs
        = Done ((start (start g b).1 (start g b).2).1, b') rs
    ∧ timerId (start (start g b).1 (start g b).2).1 = Some (S (nextTimer b))
    ∧ intervals b' !! S (nextTimer b) = None
    ∧ intervals b' !! nextTimer b = Some (Bound (S (nextFn b)) Tick).
Proof.
  intros Hdead.
  set (sb := start g b). set (sb2 := start sb.1 sb.2).
  assert (Hd : isDead sb2.1 rs = Done true rs) by exact Hdead.
  rewrite (tick_dead _ _ _ Hd). eexists. split; [reflexivity|].
  assert (Hi : intervals sb2.2
               = <[S (nextTimer b) := Bound (S (S (S (nextFn b)))) Tick]>
                   (<[nextTimer b := Bound (S (nextFn b)) Tick]>
                      (intervals b))).
  { unfold sb2, sb, start, bind_this, setInterval, addEventListener. cbn.
    repeat case_bool_decide; reflexivity. }
  assert (Ht : timerId sb2.1 = Some (S (nextTimer b))).
  { unfold sb2, sb, start, bind_this, setInterval, addEventListener. cbn.
    repeat case_bool_decide; reflexivity. }
  split; [exact Ht|]. rewrite Ht.
  cbn [intervals removeEventListener clearInterval]. rewrite Hi.
  split; [apply lookup_delete_eq|].
  rewrite lookup_delete_ne by lia.
  rewrite lookup_insert_ne by lia. apply lookup_insert_eq.
Qed.

Lemma second_start_orphans_first_timer_witness :
  ∃ b', tick (start started_crashed.1 started_crashed.2).1
             (start started_crashed.1 started_crashed.2).2 []
        = Done ((start started_crashed.1 started_crashed.2).1, b') []
    ∧ intervals b' !! 0%nat = Some (Bound 1 Tick).
Proof.
  destruct (second_start_orphans_first_timer crashed_game fresh_browser []
              eq_refl) as (b' & Ht & _ & _ & Hleft).
  exists b'. split; [exact Ht | exact Hleft].
Defined.
